(** * GELF reader: datagram reassembly, compression sniffing, field mapping

    A shallow embedding of [gelf/reader.go] ([readToMap] and [ReadMessage])
    together with the properties its specification states about it.

    Conventions.
    - A Go [[]byte] value is a window on a backing array.  The receive
      buffer [cBuf], the header window [cHead] and the message ids [cid]
      and [ocid] all look into the array allocated once by
      [make([]byte, ChunkSize)]; they are modelled as [slice]s (a pair of
      bounds) read through the current contents of that array, so that a
      write through one of them is seen through the others.
    - A read on the datagram socket fills at most [len(p)] bytes of the
      buffer it is given and drops the rest of the datagram.
    - A run-time panic (index out of range, failed type assertion) is the
      outcome [Panic]; an [error] returned by the code is [Err]; a receive
      on a socket on which nothing more arrives never returns ([Blocked]). *)

From Stdlib Require Import ZArith Lia.
From Stdlib Require Import Strings.Ascii Strings.Byte Floats.SpecFloat.
From stdpp Require Import base option list strings gmap.

Open Scope Z_scope.

(** ** Bytes *)

Abbreviation byte := Byte.byte.
Abbreviation bytes := (list Byte.byte).

#[global] Instance byte_eq_dec : EqDecision byte := Byte.byte_eq_dec.

(** [bytes.Equal] *)
Definition bytes_Equal (a b : bytes) : bool := bool_decide (a = b).

(** [int(b)] for a [uint8] *)
Definition int_of_byte (b : byte) : Z := Z.of_nat (Byte.to_nat b).

(** ** Outcomes of a call *)

Inductive goerror :=
  | ReadError (e : string)          (* the transport's error, passed on as it is *)
  | OutOfBand (cid ocid : bytes)    (* "out-of-band message %v (awaited %v)" *)
  | OutOfBandNotChunked             (* "out-of-band message (not chunked)" *)
  | NewReaderError                  (* "NewReader: %s" *)
  | UnmarshalError.                 (* "json.Unmarshal: %s" *)

Inductive outcome (A : Type) :=
  | Ok (a : A)
  | Err (e : goerror)
  | Panic
  | Blocked.
Arguments Ok {A} a.
Arguments Err {A} e.
Arguments Panic {A}.
Arguments Blocked {A}.

#[global] Instance outcome_ret : MRet outcome := @Ok.
#[global] Instance outcome_bind : MBind outcome := λ A B f m,
  match m with
  | Ok a => f a
  | Err e => Err e
  | Panic => Panic
  | Blocked => Blocked
  end.

(** a failed bounds check or type assertion *)
Definition or_panic {A} (o : option A) : outcome A :=
  match o with Some a => Ok a | None => Panic end.

(** ** The constants of the package

    [reader.go] uses five package-level names that are declared in another
    file of the package. *)

Class GelfConsts := {
  ChunkSize : nat;
  chunkedHeaderLen : nat;
  magicChunked : bytes;
  magicZlib : bytes;
  magicGzip : bytes
}.

(** ** The datagram socket *)

Inductive event :=
  | Datagram (d : bytes)
  | Failure (e : string).

(** [pending]: what the socket will hand out, in order.
    [offered]: ghost log of [len(p)] for every completed [Read(p)]. *)
Record Conn := {
  pending : list event;
  offered : list nat
}.

(** [r.conn.Read(p)], given [len(p)]: the bytes stored at the front of [p]. *)
Definition conn_Read (c : Conn) (len_p : nat) : outcome (bytes * Conn) :=
  match pending c with
  | [] => Blocked
  | Failure e :: _ => Err (ReadError e)
  | Datagram d :: rest =>
      Ok (take len_p d, {| pending := rest; offered := offered c ++ [len_p] |})
  end.

(** ** Slices of the receive array *)

Record slice := Slice { lo : nat; hi : nat }.

Definition len (s : slice) : nat := (hi s - lo s)%nat.

(** the bytes seen through [s] *)
Definition view (a : bytes) (s : slice) : bytes := take (len s) (drop (lo s) a).

(** [s[i:j]]; the upper bound may reach the capacity, not only the length *)
Definition reslice (a : bytes) (s : slice) (i j : nat) : outcome slice :=
  if bool_decide (i ≤ j ∧ lo s + j ≤ length a)%nat
  then Ok (Slice (lo s + i) (lo s + j))
  else Panic.

(** [s[i]] *)
Definition index (a : bytes) (s : slice) (i : nat) : outcome byte :=
  if bool_decide (i < len s)%nat then or_panic (a !! (lo s + i)%nat) else Panic.

(** the array after [d] has been stored at the front of [s] *)
Definition store (a : bytes) (s : slice) (d : bytes) : bytes :=
  take (lo s) a ++ d ++ drop (lo s + length d) a.

Section Reader.
Context `{GelfConsts}.

(** ** The local variables of [readToMap] (lines 165-173) *)

Record vars := {
  arr : bytes;                 (* the array behind cBuf *)
  cBuf : slice;
  n : Z;
  length_ : Z;
  cid : option slice;          (* None is nil *)
  ocid : option slice;
  seq : byte;
  total : byte;
  cHead : slice;
  chunks : list bytes          (* a nil entry and an empty one append alike *)
}.

Definition vars0 : vars :=
  {| arr := replicate ChunkSize x00;
     cBuf := Slice 0 ChunkSize;
     n := 0; length_ := 0;
     cid := None; ocid := None;
     seq := x00; total := x00;
     cHead := Slice 0 0;
     chunks := [] |}.

Inductive flow :=
  | Continue (v : vars)
  | Break (v : vars).

(** the test at line 184, with both slices read from the array as it is now *)
Definition differs (a : bytes) (cid : slice) (ocid : option slice) : bool :=
  match ocid with
  | Some o => negb (bytes_Equal (view a cid) (view a o))
  | None => false
  end.

(** lines 181-199, after the receive and the re-slicing of line 179 *)
Definition dispatch (v : vars) : outcome flow :=
  if bytes_Equal (view (arr v) (cHead v)) magicChunked then
    cid' ← reslice (arr v) (cBuf v) 2 (2 + 8);
    seq' ← index (arr v) (cBuf v) (2 + 8);
    total' ← index (arr v) (cBuf v) (2 + 8 + 1);
    if differs (arr v) cid' (ocid v) then
      Err (OutOfBand (view (arr v) cid') (from_option (view (arr v)) [] (ocid v)))
    else
      let ocid' := match ocid v with None => Some cid' | o => o end in
      let chunks' := match ocid v with
                     | None => replicate (Byte.to_nat total') []
                     | _ => chunks v
                     end in
      let n' := Z.of_nat (len (cBuf v)) - Z.of_nat chunkedHeaderLen in
      (* make([]byte, 0, n), cBuf[chunkedHeaderLen:] and chunks[seq] *)
      _ ← (if bool_decide (0 ≤ n') then Ok () else Panic);
      body ← reslice (arr v) (cBuf v) chunkedHeaderLen (len (cBuf v));
      _ ← (if bool_decide (Byte.to_nat seq' < length chunks')%nat then Ok () else Panic);
      Ok (Continue
        {| arr := arr v; cBuf := cBuf v;
           n := n'; length_ := length_ v + n';
           cid := Some cid'; ocid := ocid';
           seq := seq'; total := total';
           cHead := cHead v;
           chunks := <[Byte.to_nat seq' := view (arr v) body]> chunks' |})
  else if bool_decide (0 < int_of_byte (total v)) then Err OutOfBandNotChunked
  else Ok (Break v).

(** lines 176-199: one turn of the loop *)
Definition iteration (v : vars) (c : Conn) : outcome (flow * Conn) :=
  '(d, c') ← conn_Read c (len (cBuf v));
  let a := store (arr v) (cBuf v) d in
  let n' := length d in
  cHead' ← reslice a (cBuf v) 0 2;
  cBuf' ← reslice a (cBuf v) 0 n';
  f ← dispatch {| arr := a; cBuf := cBuf'; n := Z.of_nat n'; length_ := length_ v;
                  cid := cid v; ocid := ocid v; seq := seq v; total := total v;
                  cHead := cHead'; chunks := chunks v |};
  Ok (f, c').

(** the loop condition of line 175 *)
Definition more (got : nat) (v : vars) : bool :=
  bool_decide (got < 128)%nat &&
  (bool_decide (int_of_byte (total v) = 0) || bool_decide (Z.of_nat got < int_of_byte (total v))).

(** The [for] loop of line 175.  [got] counts up from 0 and the loop stops at
    128 at the latest, so 128 units of [fuel] are never used up before the
    condition fails. *)
Fixpoint loop (fuel got : nat) (v : vars) (c : Conn) : outcome (vars * Conn) :=
  match fuel with
  | O => Ok (v, c)
  | S fuel' =>
      if more got v then
        '(f, c') ← iteration v c;
        match f with
        | Continue v' => loop fuel' (S got) v' c'
        | Break v' => Ok (v', c')
        end
      else Ok (v, c)
  end.

(** lines 203-213: what [cHead] and [cBuf] hold when the loop is over.  The
    [append] of line 205 adds no element and leaves [cBuf] as it is.  When
    the chunks do not fit the capacity, the [append] of line 210 moves to a
    larger array whose front is the data written so far; in both cases the
    bytes under [cBuf[:2]] are the first two of the data followed by what the
    old array held beyond it. *)
Definition gather (v : vars) : bytes * bytes :=
  if bool_decide (0 < length_ v) then
    let data := concat (chunks v) in
    (take 2 (data ++ drop (length data) (arr v)), data)
  else (view (arr v) (cHead v), view (arr v) (cBuf v)).

(** lines 165-213 of [readToMap]: the contents of [cHead] and [cBuf] at
    line 215 *)
Definition reassemble (c : Conn) : outcome (bytes * bytes * Conn) :=
  '(v, c') ← loop 128 0 vars0 c;
  Ok (gather v, c').

End Reader.

(** ** Decoded JSON

    What [encoding/json] stores in an [interface{}]: nil, bool, float64,
    string, []interface{} and map[string]interface{}. *)

Abbreviation float64 := spec_float.

#[warnings="-register-all"]
Inductive JValue :=
  | JNull
  | JBool (b : bool)
  | JNumber (f : float64)
  | JString (s : string)
  | JArray (l : list JValue)
  | JObject (m : gmap string JValue).

(** [val != nil] *)
Definition nonnil (v : JValue) : bool :=
  match v with JNull => false | _ => true end.

(** [val.(string)] *)
Definition assert_string (v : JValue) : outcome string :=
  match v with JString s => Ok s | _ => Panic end.

(** ** Readers and the library calls

    An [io.Reader] is taken for what it delivers: a run of bytes ended by
    [io.EOF] or by an error.  The calls into [compress/gzip],
    [compress/zlib], [encoding/json] and [strconv] are left open, and so is
    the one thing the language leaves open about the conversion [int32(f)]:
    its value when the number does not fit. *)

Record ioReader := { delivers : bytes; fails_at_end : bool }.

(** [bytes.NewReader] *)
Definition bytes_NewReader (b : bytes) : ioReader :=
  {| delivers := b; fails_at_end := false |}.

Class Library := {
  gzip_NewReader : ioReader → option ioReader;
  zlib_NewReader : ioReader → option ioReader;
  json_Decode : ioReader → option (gmap string JValue);
  strconv_ParseFloat : string → option float64;
  int32_unrepresentable : float64 → Z
}.

(** ** The conversion [int32(f)] *)

(** the value of a 32-bit pattern read as an [int32] *)
Definition int32_wrap (z : Z) : Z := (z + 2 ^ 31) `mod` 2 ^ 32 - 2 ^ 31.

(** the integer part of a number: the fraction is dropped, toward zero;
    infinities and NaN have none *)
Definition integer_part (f : float64) : option Z :=
  match f with
  | S754_zero _ => Some 0
  | S754_finite sign m e =>
      let a := if bool_decide (0 ≤ e) then Z.pos m * 2 ^ e else Z.pos m `quot` 2 ^ (- e) in
      Some (if sign then - a else a)
  | _ => None
  end.

(** [int32(f)] for a [float64]: the integer part when an [int32] holds it;
    when none does, the conversion still succeeds, with an [int32] that
    depends on the implementation *)
Definition int32_of_float64 `{Library} (f : float64) : Z :=
  match integer_part f with
  | Some z =>
      if bool_decide (- 2 ^ 31 ≤ z < 2 ^ 31) then z
      else int32_wrap (int32_unrepresentable f)
  | None => int32_wrap (int32_unrepresentable f)
  end.

(** ** Message

    Modelled from the spec: the [Message] struct is declared in another file
    of the package; the fields are those of section 3, under the names
    [ReadMessage] assigns to.  A nil [Extra] is [None]. *)

Record Message := {
  Version : string;
  Host : string;
  Short : string;
  Full : string;
  TimeUnix : float64;
  Level : Z;
  Facility : string;
  File : string;
  Line : Z;
  Extra : option (gmap string JValue)
}.

(** [new(Message)] *)
Definition new_Message : Message :=
  {| Version := ""; Host := ""; Short := ""; Full := "";
     TimeUnix := S754_zero false; Level := 0; Facility := ""; File := "";
     Line := 0; Extra := None |}.

Definition set_Version (x : string) (m : Message) : Message :=
  {| Version := x; Host := Host m; Short := Short m; Full := Full m;
     TimeUnix := TimeUnix m; Level := Level m; Facility := Facility m;
     File := File m; Line := Line m; Extra := Extra m |}.
Definition set_Host (x : string) (m : Message) : Message :=
  {| Version := Version m; Host := x; Short := Short m; Full := Full m;
     TimeUnix := TimeUnix m; Level := Level m; Facility := Facility m;
     File := File m; Line := Line m; Extra := Extra m |}.
Definition set_Short (x : string) (m : Message) : Message :=
  {| Version := Version m; Host := Host m; Short := x; Full := Full m;
     TimeUnix := TimeUnix m; Level := Level m; Facility := Facility m;
     File := File m; Line := Line m; Extra := Extra m |}.
Definition set_Full (x : string) (m : Message) : Message :=
  {| Version := Version m; Host := Host m; Short := Short m; Full := x;
     TimeUnix := TimeUnix m; Level := Level m; Facility := Facility m;
     File := File m; Line := Line m; Extra := Extra m |}.
Definition set_TimeUnix (x : float64) (m : Message) : Message :=
  {| Version := Version m; Host := Host m; Short := Short m; Full := Full m;
     TimeUnix := x; Level := Level m; Facility := Facility m;
     File := File m; Line := Line m; Extra := Extra m |}.
Definition set_Level (x : Z) (m : Message) : Message :=
  {| Version := Version m; Host := Host m; Short := Short m; Full := Full m;
     TimeUnix := TimeUnix m; Level := x; Facility := Facility m;
     File := File m; Line := Line m; Extra := Extra m |}.
Definition set_Facility (x : string) (m : Message) : Message :=
  {| Version := Version m; Host := Host m; Short := Short m; Full := Full m;
     TimeUnix := TimeUnix m; Level := Level m; Facility := x;
     File := File m; Line := Line m; Extra := Extra m |}.
Definition set_File (x : string) (m : Message) : Message :=
  {| Version := Version m; Host := Host m; Short := Short m; Full := Full m;
     TimeUnix := TimeUnix m; Level := Level m; Facility := Facility m;
     File := x; Line := Line m; Extra := Extra m |}.
Definition set_Line (x : Z) (m : Message) : Message :=
  {| Version := Version m; Host := Host m; Short := Short m; Full := Full m;
     TimeUnix := TimeUnix m; Level := Level m; Facility := Facility m;
     File := File m; Line := x; Extra := Extra m |}.
Definition set_Extra (x : gmap string JValue) (m : Message) : Message :=
  {| Version := Version m; Host := Host m; Short := Short m; Full := Full m;
     TimeUnix := TimeUnix m; Level := Level m; Facility := Facility m;
     File := File m; Line := Line m; Extra := Some x |}.

(** ** Strings *)

(** [strings.HasPrefix(k, "_")] *)
Definition HasPrefix (k p : string) : bool := String.prefix p k.

(** [k[1:len(k)]] *)
Definition from1 (k : string) : string :=
  String.substring 1 (String.length k - 1) k.

Section Decoder.
Context `{GelfConsts} `{Library}.

(** ** [readToMap], lines 215-237 *)

(** the choice of reader at lines 216-227 *)
Definition pick_reader (cHead cBuf : bytes) : outcome (option ioReader) :=
  if bytes_Equal cHead magicGzip then
    Ok (gzip_NewReader (bytes_NewReader cBuf))
  else
    h0 ← or_panic (cHead !! 0%nat);
    z0 ← or_panic (magicZlib !! 0%nat);
    if bool_decide (h0 = z0) then
      h1 ← or_panic (cHead !! 1%nat);
      if bool_decide ((int_of_byte h0 * 256 + int_of_byte h1) `rem` 31 = 0) then
        Ok (zlib_NewReader (bytes_NewReader cBuf))
      else Ok (Some (bytes_NewReader cBuf))
    else Ok (Some (bytes_NewReader cBuf)).

Definition readToMap (c : Conn) : outcome (gmap string JValue * Conn) :=
  '(cHead, cBuf, c') ← reassemble c;
  r ← pick_reader cHead cBuf;
  match r with
  | None => Err NewReaderError
  | Some cReader =>
      match json_Decode cReader with
      | None => Err UnmarshalError
      | Some msg => Ok (msg, c')
      end
  end.

(** ** [ReadMessage] *)

(** [if val, ok := mapped[key]; ok && val != nil { ... }] *)
Definition when_set (mapped : gmap string JValue) (key : string)
    (body : JValue → Message → outcome Message) (msg : Message) : outcome Message :=
  match mapped !! key with
  | Some val => if nonnil val then body val msg else Ok msg
  | None => Ok msg
  end.

(** the three shapes of body at lines 84-148 *)
Definition take_string (set : string → Message → Message) (val : JValue) (msg : Message)
    : outcome Message :=
  v ← assert_string val; Ok (set v msg).

Definition take_nonempty (set : string → Message → Message) (val : JValue) (msg : Message)
    : outcome Message :=
  v ← assert_string val;
  Ok (if bool_decide (0 < String.length v)%nat then set v msg else msg).

(** no decoded value has the dynamic type int32, so the second case of the
    switch is never taken *)
Definition take_int32 (set : Z → Message → Message) (val : JValue) (msg : Message)
    : outcome Message :=
  match val with
  | JNumber f => Ok (set (int32_of_float64 f) msg)
  | _ => Ok msg
  end.

(** lines 105-113 *)
Definition take_timestamp (val : JValue) (msg : Message) : outcome Message :=
  match val with
  | JString s =>
      match strconv_ParseFloat s with
      | Some v => Ok (set_TimeUnix v msg)
      | None => Ok msg
      end
  | JNumber f => Ok (set_TimeUnix f msg)
  | _ => Ok msg
  end.

(** one turn of the loop at lines 151-155 *)
Definition move_extra (extra : gmap string JValue) (kv : string * JValue)
    : gmap string JValue :=
  if HasPrefix kv.1 "_" && nonnil kv.2 then <[from1 kv.1 := kv.2]> extra else extra.

(** the loop over the entries, in the order [kvs] *)
Definition range_extra (kvs : list (string * JValue)) (extra : gmap string JValue)
    : gmap string JValue :=
  foldl move_extra extra kvs.

(** lines 82-161: the message built from the decoded object *)
Definition toMessage (mapped : gmap string JValue) : outcome Message :=
  msg ← when_set mapped "version" (take_string set_Version) new_Message;
  msg ← when_set mapped "host" (take_string set_Host) msg;
  msg ← when_set mapped "short_message" (take_string set_Short) msg;
  msg ← when_set mapped "full_message" (take_nonempty set_Full) msg;
  msg ← when_set mapped "timestamp" take_timestamp msg;
  msg ← when_set mapped "level" (take_int32 set_Level) msg;
  msg ← when_set mapped "facility" (take_nonempty set_Facility) msg;
  msg ← when_set mapped "file" (take_nonempty set_File) msg;
  msg ← when_set mapped "line" (take_int32 set_Line) msg;
  let extra := range_extra (map_to_list mapped) ∅ in
  Ok (if bool_decide (0 < size extra)%nat then set_Extra extra msg else msg).

Definition ReadMessage (c : Conn) : outcome (Message * Conn) :=
  '(mapped, c') ← readToMap c;
  msg ← toMessage mapped;
  Ok (msg, c').

End Decoder.

(** ** Notions used in the statements *)

(** [msg.Extra[j]]; a nil map reads as an empty one *)
Definition extra_at (msg : Message) (j : string) : option JValue :=
  match Extra msg with Some extra => extra !! j | None => None end.

(** the message of a call, without the state of the socket *)
Definition message_of (o : outcome (Message * Conn)) : outcome Message :=
  '(msg, _) ← o; Ok msg.

(** a step [body] of [ReadMessage] leaves the field [p] as it was *)
Definition keeps {A} (p : Message → A) (body : JValue → Message → outcome Message) : Prop :=
  ∀ val m m', body val m = Ok m' → p m' = p m.

(** the value under a key that is asserted to be a string is one, or is
    null, or the key is absent *)
Definition stringy (mapped : gmap string JValue) (key : string) : Prop :=
  match mapped !! key with
  | Some (JString _) | Some JNull | None => True
  | Some _ => False
  end.

Definition well_typed (mapped : gmap string JValue) : Prop :=
  stringy mapped "version" ∧ stringy mapped "host" ∧
  stringy mapped "short_message" ∧ stringy mapped "full_message" ∧
  stringy mapped "facility" ∧ stringy mapped "file".

(** ** Chunks on the wire (section 6 of the spec) *)

(** the datagram of one chunk: magic, message id, sequence index, declared
    count, payload *)
Definition chunk_datagram `{GelfConsts} (id : bytes) (seq total : byte) (payload : bytes) : bytes :=
  magicChunked ++ id ++ [seq; total] ++ payload.

(** what the array of slots holds after the arrivals [(seq, payload)], each
    stored at its index *)
Definition placed (slots : list bytes) (arrivals : list (byte * bytes)) : list bytes :=
  foldl (λ ch a, <[Byte.to_nat a.1 := a.2]> ch) slots arrivals.

(** the byte that holds [i], for [i] up to 255 *)
Definition byte_of (i : nat) : byte := default x00 (Byte.of_nat i).

(** the datagrams of the arrivals of one message *)
Definition datagrams `{GelfConsts} (id : bytes) (tt : byte) (arrivals : list (byte * bytes))
    : list bytes :=
  (λ a, chunk_datagram id a.1 tt a.2) <$> arrivals.

(** a payload cut into [pieces], sent under [id], each piece at its index,
    arriving in the order [order] *)
Definition in_pieces `{GelfConsts} (id : bytes) (pieces : list bytes) (order : list nat)
    : list bytes :=
  datagrams id (byte_of (length pieces))
    ((λ i, (byte_of i, default [] (pieces !! i))) <$> order).

(** [t] chunks of one message that all carry the index [s] *)
Definition at_one_index `{GelfConsts} (id : bytes) (s : byte) (payloads : list bytes)
    : list bytes :=
  datagrams id (byte_of (length payloads)) ((λ p, (s, p)) <$> payloads).

(** no datagram is longer than [L] or than the one before it *)
Fixpoint no_longer_than (L : nat) (ds : list bytes) : Prop :=
  match ds with
  | [] => True
  | d :: ds' => (length d ≤ L)%nat ∧ no_longer_than (length d) ds'
  end.

(** the variables after a turn of the loop that took the chunk
    [(id, s, tt, payload)] in full *)
Definition after_chunk `{GelfConsts} (v : vars) (id : bytes) (s tt : byte) (payload : bytes)
    : vars :=
  let d := chunk_datagram id s tt payload in
  {| arr := d ++ drop (length d) (arr v);
     cBuf := Slice 0 (length d);
     n := Z.of_nat (length payload);
     length_ := length_ v + Z.of_nat (length payload);
     cid := Some (Slice 2 10);
     ocid := Some (Slice 2 10);
     seq := s; total := tt;
     cHead := Slice 0 2;
     chunks := <[Byte.to_nat s := payload]>
                 (match ocid v with
                  | None => replicate (Byte.to_nat tt) []
                  | _ => chunks v
                  end) |}.

(** ** What the loop keeps true of its variables *)

(** [cBuf] starts at the front of the array, and [ocid], once set, is the
    window [2:10] of that same array *)
Definition aliased `{GelfConsts} (v : vars) : Prop :=
  lo (cBuf v) = 0%nat ∧ (ocid v = None ∨ ocid v = Some (Slice 2 10)).

(** [cHead] is the window [0:2] of the array, and [cBuf] starts at its front *)
Definition framed `{GelfConsts} (v : vars) : Prop :=
  cHead v = Slice 0 2 ∧ lo (cBuf v) = 0%nat.

(** the variables after a turn of the loop that took [d], a datagram without
    the chunk magic *)
Definition after_plain `{GelfConsts} (v : vars) (d : bytes) : vars :=
  {| arr := d ++ drop (length d) (arr v);
     cBuf := Slice 0 (length d);
     n := Z.of_nat (length d);
     length_ := length_ v;
     cid := cid v; ocid := ocid v; seq := seq v; total := total v;
     cHead := Slice 0 2;
     chunks := chunks v |}.

(** ** The rule for the compression, in the words of the spec *)

Inductive format := Gzip | Zlib | Plain.

(** gzip when the two bytes are the gzip magic; zlib when the first is the
    zlib method byte and the 16-bit big-endian value of the two is a multiple
    of 31; uncompressed otherwise *)
Definition format_of `{GelfConsts} (b0 b1 : byte) : format :=
  if bool_decide ([b0; b1] = magicGzip) then Gzip
  else if bool_decide (magicZlib !! 0%nat = Some b0) &&
          bool_decide ((int_of_byte b0 * 256 + int_of_byte b1) `mod` 31 = 0)
  then Zlib
  else Plain.

(** by its first two bytes, [d] is told to be of the format [f] *)
Definition told `{GelfConsts} (d : bytes) (f : format) : Prop :=
  ∃ b0 b1 tl, d = b0 :: b1 :: tl ∧ format_of b0 b1 = f.

(** ** Concrete values, for running the reader on examples *)

(** The values the GELF wire format fixes for the five constants. *)
Definition gelf_wire : GelfConsts :=
  {| ChunkSize := 1420;
     chunkedHeaderLen := 12;
     magicChunked := [x1e; x0f];
     magicZlib := [x78];
     magicGzip := [x1f; x8b] |}.

(** a JSON text, written with ['] where JSON has the double quote *)
Definition json_text (s : string) : bytes :=
  (λ b, if bool_decide (b = x27) then x22 else b) <$> String.list_byte_of_string s.

Definition f_1400000000_5 : float64 := S754_finite false 2800000001 (-1).
Definition f_3 : float64 := S754_finite false 3 0.
Definition f_3000000000 : float64 := S754_finite false 3000000000 0.
Definition f_7_5 : float64 := S754_finite false 15 (-1).

(** the documents the stand-in decoder knows, each with its decoded form *)
Definition demo_documents : list (string * gmap string JValue) :=
  [ ("{'version':'1.1','host':'h1','short_message':'boom','timestamp':1400000000.5,'level':3,'_user':'alice'}",
     {[ "version" := JString "1.1"; "host" := JString "h1";
        "short_message" := JString "boom"; "timestamp" := JNumber f_1400000000_5;
        "level" := JNumber f_3; "_user" := JString "alice" ]});
    ("{'host':'h1','_user':'alice','_empty':null}",
     {[ "host" := JString "h1"; "_user" := JString "alice"; "_empty" := JNull ]});
    ("{'host':'h1','full_message':''}",
     {[ "host" := JString "h1"; "full_message" := JString "" ]});
    ("{'host':'h1'}",
     {[ "host" := JString "h1" ]});
    ("{'facility':'','timestamp':'1400000000.5'}",
     {[ "facility" := JString ""; "timestamp" := JString "1400000000.5" ]});
    ("{'timestamp':true}",
     {[ "timestamp" := JBool true ]});
    ("{'_':'x'}",
     {[ "_" := JString "x" ]});
    ("{'facility':'auth','host':'h1'}",
     {[ "facility" := JString "auth"; "host" := JString "h1" ]});
    ("{'level':3000000000,'line':7.5}",
     {[ "level" := JNumber f_3000000000; "line" := JNumber f_7_5 ]}) ].

(** ** The library in the small

    What [compress/flate], [compress/zlib], [compress/gzip] and the two
    checksums do with a stream held in memory, after RFC 1950, 1951 and 1952
    and the readers of the Go library.  It serves the stand-in library of the
    examples; no general statement depends on it. *)

(** *** Checksums *)

(** [hash/crc32], the IEEE polynomial, bit by bit *)
Definition crc32_Update (crc : Z) (b : byte) : Z :=
  Nat.iter 8 (λ c, if Z.testbit c 0 then Z.lxor (Z.shiftr c 1) 0xEDB88320 else Z.shiftr c 1)
           (Z.lxor crc (int_of_byte b)).

Definition crc32_ChecksumIEEE (p : bytes) : Z :=
  Z.lxor (foldl crc32_Update 0xFFFFFFFF p) 0xFFFFFFFF.

(** [hash/adler32] *)
Definition adler32_Checksum (p : bytes) : Z :=
  let '(a, b) := foldl (λ '(a, b) x, let a' := (a + int_of_byte x) `mod` 65521 in
                                      (a', (b + a') `mod` 65521)) (1, 0) p in
  b * 65536 + a.

(** little-endian and big-endian numbers *)
Definition le_number (p : bytes) : Z := foldr (λ x acc, int_of_byte x + 256 * acc) 0 p.
Definition be_number (p : bytes) : Z := foldl (λ acc x, 256 * acc + int_of_byte x) 0 p.

(** *** [compress/flate] *)

(** the input of the decompressor: the bits left of the byte it is in, lowest
    first, and the bytes after it *)
Record bitReader := { inbyte : list bool; ahead : bytes }.

Definition bits_of_byte (x : byte) : list bool :=
  (λ i, Z.testbit (int_of_byte x) (Z.of_nat i)) <$> List.seq 0 8.

Definition available (r : bitReader) : nat := (length (inbyte r) + 8 * length (ahead r))%nat.

Definition readBit (r : bitReader) : option (bool * bitReader) :=
  match inbyte r with
  | b :: bs => Some (b, {| inbyte := bs; ahead := ahead r |})
  | [] =>
      match ahead r with
      | x :: xs =>
          match bits_of_byte x with
          | b :: bs => Some (b, {| inbyte := bs; ahead := xs |})
          | [] => None
          end
      | [] => None
      end
  end.

(** [n] bits as a number, the first bit read being the lowest *)
Fixpoint readBits (n : nat) (r : bitReader) : option (Z * bitReader) :=
  match n with
  | O => Some (0, r)
  | S n' =>
      '(b, r1) ← readBit r;
      '(v, r2) ← readBits n' r1;
      Some (Z.b2z b + 2 * v, r2)
  end.

(** a Huffman code given by the code length of each symbol: the shortest
    length in use, how many symbols have each length, and the symbols in the
    order of their codes *)
Record huffmanDecoder := {
  hmin : nat;
  hcount : list nat;
  hsymbol : list nat
}.

Definition huffman_of (lengths : list nat) : huffmanDecoder :=
  {| hmin := foldr (λ n m, if bool_decide (n = 0)%nat then m
                           else if bool_decide (m = 0)%nat then n else n `min` m)%nat
                   0%nat lengths;
     hcount := (λ l, length (filter (λ n, n = l) lengths)) <$> List.seq 0 16;
     hsymbol := l ← List.seq 1 15;
                filter (λ s, lengths !! s = Some l) (List.seq 0 (length lengths)) |}.

(** [huffmanDecoder.init] accepts the empty code, a complete code, and the
    code of one symbol of length one *)
Definition huffman_init (lengths : list nat) : option huffmanDecoder :=
  let used := filter (λ n, n ≠ 0%nat) lengths in
  let space := foldr (λ n acc, 2 ^ (15 - Z.of_nat n) + acc) 0 used in
  if bool_decide (used = []) || bool_decide (space = 2 ^ 15) || bool_decide (used = [1%nat])
  then Some (huffman_of lengths) else None.

(** one symbol, the code read bit by bit from its first bit *)
Fixpoint huffSym_from (h : huffmanDecoder) (todo len code first index : nat) (r : bitReader)
    : option (nat * bitReader) :=
  match todo with
  | O => None
  | S todo' =>
      '(b, r') ← readBit r;
      let code := (code + if b : bool then 1 else 0)%nat in
      let count := default 0%nat (hcount h !! len) in
      if bool_decide (code < first + count)%nat then
        sym ← hsymbol h !! (index + (code - first))%nat; Some (sym, r')
      else
        huffSym_from h todo' (S len) (2 * code)%nat (2 * (first + count))%nat
                     (index + count)%nat r'
  end.

(** the decoder asks for [hmin] bits before it looks a code up *)
Definition huffSym (h : huffmanDecoder) (r : bitReader) : option (nat * bitReader) :=
  if bool_decide (hmin h ≤ available r)%nat then huffSym_from h 15 1 0 0 0 r else None.

(** the code of the fixed Huffman blocks *)
Definition fixedHuffmanDecoder : huffmanDecoder :=
  huffman_of (replicate 144 8 ++ replicate 112 9 ++ replicate 24 7 ++ replicate 8 8)%nat.

(** the length of a match, from its symbol 257..285 *)
Definition match_length (v : nat) (r : bitReader) : option (nat * bitReader) :=
  let i := (v - 257)%nat in
  if bool_decide (v < 265)%nat then Some ((v - 254)%nat, r)
  else if bool_decide (v < 285)%nat then
    let n := ((i - 4) / 4)%nat in
    '(extra, r') ← readBits n r;
    Some ((3 + (4 + i `mod` 4) * 2 ^ n + Z.to_nat extra)%nat, r')
  else if bool_decide (v = 285)%nat then Some (258%nat, r)
  else None.

(** the distance of a match, from its symbol 0..29 *)
Definition match_distance (d : nat) (r : bitReader) : option (nat * bitReader) :=
  if bool_decide (d < 4)%nat then Some (S d, r)
  else if bool_decide (d < 30)%nat then
    let nb := ((d - 2) / 2)%nat in
    '(extra, r') ← readBits nb r;
    Some ((2 ^ (nb + 1) + 1 + (d `mod` 2) * 2 ^ nb + Z.to_nat extra)%nat, r')
  else None.

(** five bits, the highest first *)
Definition fixed_distance (r : bitReader) : option (nat * bitReader) :=
  '(v, r') ← readBits 5 r;
  Some (Z.to_nat (foldl (λ acc i, 2 * acc + Z.b2z (Z.testbit v (Z.of_nat i))) 0 (List.seq 0 5)),
        r').

(** [length] bytes copied from [dist] back, one at a time *)
Fixpoint copy_back (length dist : nat) (out : bytes) : bytes :=
  match length with
  | O => out
  | S length' =>
      copy_back length' dist
        (out ++ [default x00 (out !! (List.length out - dist)%nat)])
  end.

(** what a step of the decompressor leaves: the output so far, the input
    after it, and whether it went well *)
Definition inflated : Type := bytes * bitReader * bool.

Fixpoint huffmanBlock (fuel : nat) (hl : huffmanDecoder) (hd : option huffmanDecoder)
    (out : bytes) (r : bitReader) : inflated :=
  match fuel with
  | O => (out, r, false)
  | S fuel' =>
      match huffSym hl r with
      | None => (out, r, false)
      | Some (v, r1) =>
          if bool_decide (v < 256)%nat then
            huffmanBlock fuel' hl hd (out ++ [byte_of v]) r1
          else if bool_decide (v = 256)%nat then (out, r1, true)
          else
            match
              '(length, r2) ← match_length v r1;
              '(d, r3) ← match hd with
                         | None => fixed_distance r2
                         | Some h => huffSym h r2
                         end;
              '(dist, r4) ← match_distance d r3;
              if bool_decide (dist ≤ List.length out)%nat then Some (length, dist, r4) else None
            with
            | Some (length, dist, r4) => huffmanBlock fuel' hl hd (copy_back length dist out) r4
            | None => (out, r1, false)
            end
      end
  end.

(** a stored block *)
Definition dataBlock (out : bytes) (r : bitReader) : inflated :=
  let p := ahead r in
  if bool_decide (4 ≤ length p)%nat then
    let n := le_number (take 2 p) in
    let nn := le_number (take 2 (drop 2 p)) in
    if bool_decide (nn = 65535 - n) then
      let data := take (Z.to_nat n) (drop 4 p) in
      (out ++ data, {| inbyte := []; ahead := drop (Z.to_nat n) (drop 4 p) |},
       bool_decide (length data = Z.to_nat n))
    else (out, {| inbyte := []; ahead := drop 4 p |}, false)
  else (out, {| inbyte := []; ahead := [] |}, false).

Definition codeOrder : list nat :=
  [16; 17; 18; 0; 8; 7; 9; 6; 10; 5; 11; 4; 12; 3; 13; 2; 14; 1; 15]%nat.

(** the code lengths of a dynamic block, read with the code [h] *)
Fixpoint codeLengths (fuel : nat) (h : huffmanDecoder) (n : nat) (bits : list nat)
    (r : bitReader) : option (list nat * bitReader) :=
  if bool_decide (n ≤ length bits)%nat then Some (bits, r)
  else
    match fuel with
    | O => None
    | S fuel' =>
        '(x, r1) ← huffSym h r;
        if bool_decide (x < 16)%nat then codeLengths fuel' h n (bits ++ [x]) r1
        else
          '(rep, nb, b) ←
             (if bool_decide (x = 16)%nat then b ← last bits; Some (3, 2, b)
              else if bool_decide (x = 17)%nat then Some (3, 3, 0)
              else Some (11, 7, 0))%nat;
          '(extra, r2) ← readBits nb r1;
          let rep := (rep + Z.to_nat extra)%nat in
          if bool_decide (length bits + rep ≤ n)%nat
          then codeLengths fuel' h n (bits ++ replicate rep b) r2
          else None
    end.

(** the two codes of a dynamic block; the code of the literals never asks
    for fewer bits than the end-of-block symbol has *)
Definition readHuffman (r : bitReader) : option (huffmanDecoder * huffmanDecoder * bitReader) :=
  '(hlit, r1) ← readBits 5 r;
  '(hdist, r2) ← readBits 5 r1;
  '(hclen, r3) ← readBits 4 r2;
  let nlit := (Z.to_nat hlit + 257)%nat in
  let ndist := (Z.to_nat hdist + 1)%nat in
  let nclen := (Z.to_nat hclen + 4)%nat in
  if bool_decide (286 < nlit)%nat || bool_decide (30 < ndist)%nat then None
  else
    '(codebits, r4) ←
       foldl (λ acc i, '(cb, r) ← acc; '(v, r') ← readBits 3 r;
                       Some (<[i := Z.to_nat v]> cb, r'))
             (Some (replicate 19 0%nat, r3)) (take nclen codeOrder);
    h ← huffman_init codebits;
    '(bits, r5) ← codeLengths (nlit + ndist) h (nlit + ndist) [] r4;
    h1 ← huffman_init (take nlit bits);
    h2 ← huffman_init (drop nlit bits);
    let eob := default 0%nat (bits !! 256%nat) in
    Some ({| hmin := hmin h1 `max` eob; hcount := hcount h1; hsymbol := hsymbol h1 |}, h2, r5).

(** the blocks of a stream, up to the final one *)
Fixpoint nextBlock (fuel : nat) (out : bytes) (r : bitReader) : inflated :=
  match fuel with
  | O => (out, r, false)
  | S fuel' =>
      match readBits 3 r with
      | Some (header, r1) =>
          let final := Z.testbit header 0 in
          let typ := header / 2 in
          let '(out', r', ok) :=
            if bool_decide (typ = 0) then dataBlock out r1
            else if bool_decide (typ = 1) then
              huffmanBlock (S (available r1)) fixedHuffmanDecoder None out r1
            else if bool_decide (typ = 2) then
              match readHuffman r1 with
              | Some (h1, h2, r2) => huffmanBlock (S (available r2)) h1 (Some h2) out r2
              | None => (out, r1, false)
              end
            else (out, r1, false) in
          if ok && negb final then nextBlock fuel' out' r' else (out', r', ok)
      | None => (out, r, false)
      end
  end.

(** the decompressor over [p]: what it delivers, the input after the stream,
    and whether the stream ended as it should *)
Definition flate_NewReader (p : bytes) : bytes * bytes * bool :=
  let '(out, r, ok) := nextBlock (S (length p)) [] {| inbyte := []; ahead := p |} in
  (out, ahead r, ok).

(** *** [compress/zlib]

    The header is refused at once when it is not one; the checksum is only
    looked at when the data has been delivered.  No dictionary is given, so
    a stream that asks for one must ask for the empty one. *)

Definition zlib_Reader (p : bytes) : option ioReader :=
  match p with
  | cmf :: flg :: rest =>
      if bool_decide (int_of_byte cmf `mod` 16 = 8) &&
         bool_decide (int_of_byte cmf / 16 ≤ 7) &&
         bool_decide ((int_of_byte cmf * 256 + int_of_byte flg) `mod` 31 = 0)
      then
        body ← (if Z.testbit (int_of_byte flg) 5
                then if bool_decide (take 4 rest = [x00; x00; x00; x01])
                     then Some (drop 4 rest) else None
                else Some rest);
        let '(out, trailer, ok) := flate_NewReader body in
        Some {| delivers := out;
                fails_at_end :=
                  negb (ok && bool_decide (4 ≤ length trailer)%nat &&
                        bool_decide (be_number (take 4 trailer) = adler32_Checksum out)) |}
      else None
  | _ => None
  end.

(** *** [compress/gzip]

    The header of the first member is read, and refused when it is not one,
    before any data is delivered; members that follow are read on. *)

(** a string of the header, up to and with its closing zero *)
Definition skip_string (p : bytes) : option bytes :=
  '(i, _) ← list_find (λ x, x = x00) p;
  if bool_decide (i < 512)%nat then Some (drop (S i) p) else None.

(** the header of a member: the input after it *)
Definition gzip_readHeader (p : bytes) : option bytes :=
  if bool_decide (10 ≤ length p)%nat && bool_decide (take 3 p = [x1f; x8b; x08]) then
    let flg := int_of_byte (default x00 (p !! 3%nat)) in
    let p0 := drop 10 p in
    p1 ← (if Z.testbit flg 2
          then if bool_decide (2 ≤ length p0)%nat &&
                  bool_decide (2 + Z.to_nat (le_number (take 2 p0)) ≤ length p0)%nat
               then Some (drop (2 + Z.to_nat (le_number (take 2 p0))) p0) else None
          else Some p0);
    p2 ← (if Z.testbit flg 3 then skip_string p1 else Some p1);
    p3 ← (if Z.testbit flg 4 then skip_string p2 else Some p2);
    if Z.testbit flg 1 then
      if bool_decide (2 ≤ length p3)%nat &&
         bool_decide (le_number (take 2 p3) =
                      crc32_ChecksumIEEE (take (length p - length p3) p) `mod` 65536)
      then Some (drop 2 p3) else None
    else Some p3
  else None.

(** the members after the header of the first one *)
Fixpoint gzip_members (fuel : nat) (out : bytes) (body : bytes) : ioReader :=
  let '(data, trailer, ok) := flate_NewReader body in
  let good :=
    ok && bool_decide (8 ≤ length trailer)%nat &&
    bool_decide (le_number (take 4 trailer) = crc32_ChecksumIEEE data) &&
    bool_decide (le_number (take 4 (drop 4 trailer)) = Z.of_nat (length data) `mod` 2 ^ 32) in
  if good then
    match drop 8 trailer, fuel with
    | [], _ => {| delivers := out ++ data; fails_at_end := false |}
    | next, S fuel' =>
        match gzip_readHeader next with
        | Some body' => gzip_members fuel' (out ++ data) body'
        | None => {| delivers := out ++ data; fails_at_end := true |}
        end
    | _, O => {| delivers := out ++ data; fails_at_end := true |}
    end
  else {| delivers := out ++ data; fails_at_end := true |}.

Definition gzip_Reader (p : bytes) : option ioReader :=
  body ← gzip_readHeader p; Some (gzip_members (length p) [] body).

(** A stand-in for the library: gzip and zlib streams are read as above, the
    JSON decoder knows the documents above, the number parser knows one
    numeral, and a number that does not fit an [int32] is converted to the
    lowest one, as on amd64. *)
Definition demo_library : Library :=
  {| gzip_NewReader r :=
       z ← gzip_Reader (delivers r);
       Some {| delivers := delivers z; fails_at_end := fails_at_end z || fails_at_end r |};
     zlib_NewReader r :=
       z ← zlib_Reader (delivers r);
       Some {| delivers := delivers z; fails_at_end := fails_at_end z || fails_at_end r |};
     json_Decode r :=
       (λ found, found.2.2) <$> list_find (λ e, json_text e.1 = delivers r) demo_documents;
     strconv_ParseFloat s :=
       if bool_decide (s = "1400000000.5") then Some f_1400000000_5 else None;
     int32_unrepresentable _ := - 2 ^ 31 |}.

Definition on_wire (ds : list bytes) : Conn :=
  {| pending := Datagram <$> ds; offered := [] |}.

(** the bytes of a text *)
Definition text (s : string) : bytes := String.list_byte_of_string s.

Definition id_demo : bytes := [x01; x02; x03; x04; x05; x06; x07; x08].
Definition id_other : bytes := [x01; x02; x03; x04; x05; x06; x07; x09].

(** 129 pieces of one byte each *)
Definition pieces_129 : list bytes := (λ i, [byte_of i]) <$> List.seq 0 129.

Definition doc_extra : bytes := json_text "{'host':'h1','_user':'alice','_empty':null}".
Definition doc_host : bytes := json_text "{'host':'h1'}".
Definition doc_empty_full : bytes := json_text "{'host':'h1','full_message':''}".
Definition doc_facility : bytes := json_text "{'facility':'','timestamp':'1400000000.5'}".
Definition doc_bare : bytes := json_text "{'_':'x'}".
Definition doc_auth : bytes := json_text "{'facility':'auth','host':'h1'}".
Definition doc_numbers : bytes := json_text "{'level':3000000000,'line':7.5}".

(** [doc_host] as a gzip stream, as a zlib stream with the window of 32K that
    the first byte [0x78] stands for, and as a zlib stream with a window of
    16K, whose first byte is [0x68] *)
Definition gzip_host : bytes :=
  [x1f; x8b; x08; x00; x00; x00; x00; x00; x02; x03;
   xab; x56; xca; xc8; x2f; x2e; x51; xb2; x52; xca; x30; x54; xaa; x05; x00;
   xc8; xe3; x73; x99; x0d; x00; x00; x00].
Definition zlib_host : bytes :=
  [x78; x9c;
   xab; x56; xca; xc8; x2f; x2e; x51; xb2; x52; xca; x30; x54; xaa; x05; x00;
   x1e; x45; x04; x12].
Definition zlib_host_16k : bytes :=
  [x68; x05;
   xab; x56; xca; xc8; x2f; x2e; x51; xb2; x52; xca; x30; x54; xaa; x05; x00;
   x1e; x45; x04; x12].

Definition done_1 : Conn := {| pending := []; offered := [1420%nat] |}.

(** ** Further notions, for the rest of the reader *)



(** the string under a key, empty when there is none *)
Definition string_at (mapped : gmap string JValue) (key : string) : string :=
  match mapped !! key with Some (JString v) => v | _ => "" end.

(** the variables a turn of the loop ends with *)
Definition vars_of `{GelfConsts} (f : flow) : vars :=
  match f with Continue v | Break v => v end.

(** the lengths offered to the transport for the datagrams [ds], the first
    being offered [L] bytes: each receive is offered what the one before it
    stored *)
Fixpoint offers (L : nat) (ds : list bytes) : list nat :=
  match ds with
  | [] => []
  | d :: ds' => L :: offers (L `min` length d) ds'
  end.

(** [cBuf] lies at the front of the array and within it *)
Definition fronted `{GelfConsts} (v : vars) : Prop :=
  lo (cBuf v) = 0%nat ∧ (hi (cBuf v) ≤ length (arr v))%nat.

(** ** [Read] *)

(** [strings.NewReader(data).Read(p)] on the fresh reader: the count, whether
    the error is [io.EOF], and [p] afterwards.  Over an empty text the reader
    is at its end at once; otherwise [copy] overwrites the front of [p] with
    as much of the text as fits. *)
Definition strings_Read (data : string) (p : bytes) : Z * bool * bytes :=
  let s := String.list_byte_of_string data in
  if bool_decide (length s = 0%nat) then (0, true, p)
  else
    let n := (length p `min` length s)%nat in
    (Z.of_nat n, false, take n s ++ drop n p).

(** what [Read] returns: [-1] and the error of [ReadMessage], or what the
    string reader returned *)
Inductive read_return :=
  | Failed (n : Z) (e : goerror)
  | Delivered (n : Z) (eof : bool) (p : bytes) (c : Conn).

Section ReadModel.
Context `{GelfConsts} `{Library}.

(** [Read], lines 53-68 *)
Definition Read (c : Conn) (p : bytes) : outcome read_return :=
  match ReadMessage c with
  | Err e => Ok (Failed (-1) e)
  | Panic => Panic
  | Blocked => Blocked
  | Ok (msg, c') =>
      let data := if bool_decide (Full msg = "") then Short msg else Full msg in
      let '(n, eof, p') := strings_Read data p in
      Ok (Delivered n eof p' c')
  end.

End ReadModel.

(** the text [Read] hands out for a decoded object: the full message, or
    the short one when there is no full one *)
Definition text_of (mapped : gmap string JValue) : string :=
  if bool_decide (string_at mapped "full_message" = "")
  then string_at mapped "short_message"
  else string_at mapped "full_message".

(** the stand-in library with a JSON decoder that knows the documents
    [docs] and nothing else *)
Definition table_library (docs : list (bytes * gmap string JValue)) : Library :=
  {| gzip_NewReader := @gzip_NewReader demo_library;
     zlib_NewReader := @zlib_NewReader demo_library;
     json_Decode r := (λ found, found.2.2) <$> list_find (λ e, e.1 = delivers r) docs;
     strconv_ParseFloat := @strconv_ParseFloat demo_library;
     int32_unrepresentable := @int32_unrepresentable demo_library |}.





Definition obj_fields : gmap string JValue :=
  {[ "version" := JString "1.1"; "host" := JString "h1";
     "short_message" := JString "boom"; "file" := JString "";
     "level" := JNumber f_3; "line" := JString "7" ]}.

Definition obj_underscores : gmap string JValue :=
  {[ "_a" := JString "x"; "_b" := JNull; "c" := JBool true ]}.

(** 128 chunks of a message that declares 129 *)
Definition arrivals_128 : list (byte * bytes) :=
  (λ i, (byte_of i, [byte_of i])) <$> List.seq 0 128.

(** * Properties *)

(** ** The outcome monad *)

Lemma bind_Ok {A B} (m : outcome A) (f : A → outcome B) (b : B) :
  m ≫= f = Ok b → ∃ a, m = Ok a ∧ f a = Ok b.
Proof. destruct m; simpl; intros E; try discriminate. eauto. Qed.

(** ** Strings *)

Lemma substring_all (s : string) : String.substring 0 (String.length s) s = s.
Proof. induction s as [|a s IH]; simpl; [done | by rewrite IH]. Qed.

Lemma from1_cons (a : Ascii.ascii) (s : string) : from1 (String a s) = s.
Proof. unfold from1. simpl. rewrite Nat.sub_0_r. apply substring_all. Qed.

Lemma HasPrefix_underscore (k : string) :
  HasPrefix k "_" = true ↔ ∃ r, k = String "_"%char r.
Proof.
  unfold HasPrefix. destruct k as [|a k].
  - simpl. split; [discriminate | intros [r ?]; discriminate].
  - change (String.prefix "_" (String a k))
      with (if Ascii.ascii_dec "_"%char a then String.prefix "" k else false).
    destruct (Ascii.ascii_dec "_"%char a) as [<-|Hne].
    + split; [intros _; by exists k | intros _; by destruct k].
    + split; [discriminate | intros [r E]; injection E as E _; congruence].
Qed.

Section MapperFacts.
Context `{GelfConsts} `{Library}.

(** ** The loop that fills [extra] *)

Lemma move_extra_lookup (extra : gmap string JValue) (k : string) (v : JValue) (j : string) :
  move_extra extra (k, v) !! j =
    if bool_decide (k = String "_"%char j) && nonnil v then Some v else extra !! j.
Proof.
  unfold move_extra. simpl.
  destruct (HasPrefix k "_") eqn:Hp; simpl.
  - apply HasPrefix_underscore in Hp as [r ->].
    destruct (nonnil v); simpl; [|by rewrite andb_false_r].
    rewrite from1_cons, andb_true_r. case_bool_decide as E.
    + injection E as ->. by rewrite lookup_insert_eq.
    + rewrite lookup_insert_ne; [done | congruence].
  - case_bool_decide as E; [|done]. subst k.
    assert (HasPrefix (String "_"%char j) "_" = true) by (apply HasPrefix_underscore; eauto).
    congruence.
Qed.

Lemma range_extra_lookup (kvs : list (string * JValue)) (extra : gmap string JValue) (j : string) :
  NoDup kvs.*1 →
  range_extra kvs extra !! j =
    match (list_to_map kvs : gmap string JValue) !! String "_"%char j with
    | Some v => if nonnil v then Some v else extra !! j
    | None => extra !! j
    end.
Proof.
  unfold range_extra. revert extra.
  induction kvs as [|[k v] kvs IH]; intros extra Hnd; simpl; [done|].
  apply NoDup_cons in Hnd as [Hk Hnd]. rewrite IH by done.
  rewrite move_extra_lookup.
  destruct (decide (k = String "_"%char j)) as [->|Hne].
  - rewrite lookup_insert_eq, bool_decide_eq_true_2 by done. simpl.
    rewrite (not_elem_of_list_to_map_1 _ _ Hk). done.
  - rewrite lookup_insert_ne, bool_decide_eq_false_2 by done. done.
Qed.

(** Go leaves the order of a [range] over a map open; the outcome of the loop
    does not depend on it. *)
Lemma range_extra_any_order (mapped : gmap string JValue) (kvs : list (string * JValue)) :
  kvs ≡ₚ map_to_list mapped →
  range_extra kvs ∅ = range_extra (map_to_list mapped) ∅.
Proof.
  intros Hp. apply map_eq. intros j.
  assert (NoDup kvs.*1) by (rewrite Hp; apply NoDup_fst_map_to_list).
  rewrite !range_extra_lookup by (done || apply NoDup_fst_map_to_list).
  rewrite (list_to_map_proper kvs (map_to_list mapped)) by done. done.
Qed.

Lemma extra_lookup (mapped : gmap string JValue) (j : string) (v : JValue) :
  range_extra (map_to_list mapped) ∅ !! j = Some v ↔
  mapped !! String "_"%char j = Some v ∧ v ≠ JNull.
Proof.
  rewrite range_extra_lookup by apply NoDup_fst_map_to_list.
  rewrite list_to_map_to_list, lookup_empty.
  destruct (mapped !! String "_"%char j) as [w|].
  - destruct (nonnil w) eqn:N.
    + split.
      * intros [= ->]. split; [done|]. intros ->. discriminate.
      * by intros [[= ->] _].
    + split; [discriminate|]. intros [[= ->] Hv]. by destruct v.
  - split; [discriminate | intros [? _]; discriminate].
Qed.

(** ** Which fields a step of [ReadMessage] leaves alone *)

Lemma when_set_keeps {A} (p : Message → A) mapped key body m m' :
  keeps p body → when_set mapped key body m = Ok m' → p m' = p m.
Proof.
  unfold when_set. intros Hk E.
  destruct (mapped !! key) as [val|]; [|by injection E as <-].
  destruct (nonnil val); [by eapply Hk | by injection E as <-].
Qed.

Lemma take_string_keeps {A} (p : Message → A) set :
  (∀ x m, p (set x m) = p m) → keeps p (take_string set).
Proof.
  intros Hs val m m' E. destruct val; try discriminate.
  injection E as <-. apply Hs.
Qed.

Lemma take_nonempty_keeps {A} (p : Message → A) set :
  (∀ x m, p (set x m) = p m) → keeps p (take_nonempty set).
Proof.
  intros Hs val m m' E. destruct val; try discriminate.
  injection E as <-. case_bool_decide; [apply Hs | done].
Qed.

Lemma take_int32_keeps {A} (p : Message → A) set :
  (∀ x m, p (set x m) = p m) → keeps p (take_int32 set).
Proof.
  intros Hs val m m' E. destruct val; injection E as <-; done || apply Hs.
Qed.

Lemma take_timestamp_keeps {A} (p : Message → A) :
  (∀ x m, p (set_TimeUnix x m) = p m) → keeps p take_timestamp.
Proof.
  intros Hs val m m' E. destruct val; simpl in E;
    try (injection E as <-; done || apply Hs).
  destruct (strconv_ParseFloat s); injection E as <-; done || apply Hs.
Qed.

(** ** What decides whether [ReadMessage] gets through the map *)

Lemma when_set_string_total mapped key set m :
  stringy mapped key → ∃ m', when_set mapped key (take_string set) m = Ok m'.
Proof.
  unfold stringy, when_set. destruct (mapped !! key) as [[]|]; simpl; by eauto.
Qed.

Lemma when_set_nonempty_total mapped key set m :
  stringy mapped key → ∃ m', when_set mapped key (take_nonempty set) m = Ok m'.
Proof.
  unfold stringy, when_set. destruct (mapped !! key) as [[]|]; simpl; by eauto.
Qed.

Lemma when_set_int32_total mapped key set m :
  ∃ m', when_set mapped key (take_int32 set) m = Ok m'.
Proof.
  unfold when_set. destruct (mapped !! key) as [[]|]; simpl; by eauto.
Qed.

Lemma when_set_timestamp_total mapped m :
  ∃ m', when_set mapped "timestamp" take_timestamp m = Ok m'.
Proof.
  unfold when_set. destruct (mapped !! "timestamp") as [[]|]; simpl; eauto.
  destruct (strconv_ParseFloat s); eauto.
Qed.

Lemma toMessage_total mapped :
  well_typed mapped → ∃ msg, toMessage mapped = Ok msg.
Proof.
  intros (Hv & Hh & Hs & Hf & Hfa & Hfi). unfold toMessage.
  destruct (when_set_string_total mapped "version" set_Version new_Message Hv) as [m1 ->].
  destruct (when_set_string_total mapped "host" set_Host m1 Hh) as [m2 E2].
  destruct (when_set_string_total mapped "short_message" set_Short m2 Hs) as [m3 E3].
  destruct (when_set_nonempty_total mapped "full_message" set_Full m3 Hf) as [m4 E4].
  destruct (when_set_timestamp_total mapped m4) as [m5 E5].
  destruct (when_set_int32_total mapped "level" set_Level m5) as [m6 E6].
  destruct (when_set_nonempty_total mapped "facility" set_Facility m6 Hfa) as [m7 E7].
  destruct (when_set_nonempty_total mapped "file" set_File m7 Hfi) as [m8 E8].
  destruct (when_set_int32_total mapped "line" set_Line m8) as [m9 E9].
  simpl. rewrite E2. simpl. rewrite E3. simpl. rewrite E4. simpl. rewrite E5. simpl.
  rewrite E6. simpl. rewrite E7. simpl. rewrite E8. simpl. rewrite E9. simpl. eauto.
Qed.

(** the nine guarded assignments, one after the other, then the move into
    [Extra] *)
Lemma toMessage_steps mapped msg :
  toMessage mapped = Ok msg →
  ∃ m1 m2 m3 m4 m5 m6 m7 m8 m9,
    when_set mapped "version" (take_string set_Version) new_Message = Ok m1 ∧
    when_set mapped "host" (take_string set_Host) m1 = Ok m2 ∧
    when_set mapped "short_message" (take_string set_Short) m2 = Ok m3 ∧
    when_set mapped "full_message" (take_nonempty set_Full) m3 = Ok m4 ∧
    when_set mapped "timestamp" take_timestamp m4 = Ok m5 ∧
    when_set mapped "level" (take_int32 set_Level) m5 = Ok m6 ∧
    when_set mapped "facility" (take_nonempty set_Facility) m6 = Ok m7 ∧
    when_set mapped "file" (take_nonempty set_File) m7 = Ok m8 ∧
    when_set mapped "line" (take_int32 set_Line) m8 = Ok m9 ∧
    msg = (let extra := range_extra (map_to_list mapped) ∅ in
           if bool_decide (0 < size extra)%nat then set_Extra extra m9 else m9).
Proof.
  unfold toMessage. intros E.
  apply bind_Ok in E as (m1 & E1 & E). apply bind_Ok in E as (m2 & E2 & E).
  apply bind_Ok in E as (m3 & E3 & E). apply bind_Ok in E as (m4 & E4 & E).
  apply bind_Ok in E as (m5 & E5 & E). apply bind_Ok in E as (m6 & E6 & E).
  apply bind_Ok in E as (m7 & E7 & E). apply bind_Ok in E as (m8 & E8 & E).
  apply bind_Ok in E as (m9 & E9 & E). injection E as <-.
  by exists m1, m2, m3, m4, m5, m6, m7, m8, m9.
Qed.

Lemma when_set_string_Ok mapped key set m m' :
  when_set mapped key (take_string set) m = Ok m' → stringy mapped key.
Proof.
  unfold stringy, when_set. by destruct (mapped !! key) as [[]|].
Qed.

Lemma when_set_nonempty_Ok mapped key set m m' :
  when_set mapped key (take_nonempty set) m = Ok m' → stringy mapped key.
Proof.
  unfold stringy, when_set. by destruct (mapped !! key) as [[]|].
Qed.

Lemma toMessage_Ok_typed mapped msg :
  toMessage mapped = Ok msg → well_typed mapped.
Proof.
  intros E. apply toMessage_steps in E
    as (m1 & m2 & m3 & m4 & m5 & m6 & m7 & m8 & m9 &
        E1 & E2 & E3 & E4 & E5 & E6 & E7 & E8 & E9 & _).
  repeat split; eauto using when_set_string_Ok, when_set_nonempty_Ok.
Qed.

(** [frame p E]: from a step [E] that does not assign the field [p], the
    equation between [p] after and before it *)
Ltac frame p E :=
  let K := fresh "K" in
  pose proof E as K;
  eapply (when_set_keeps p) in K;
  [ | lazymatch goal with
      | |- keeps _ (take_string _) => apply take_string_keeps
      | |- keeps _ (take_nonempty _) => apply take_nonempty_keeps
      | |- keeps _ (take_int32 _) => apply take_int32_keeps
      | |- keeps _ take_timestamp => apply take_timestamp_keeps
      end; intros; reflexivity ].

Lemma toMessage_Extra mapped msg :
  toMessage mapped = Ok msg →
  Extra msg = (let extra := range_extra (map_to_list mapped) ∅ in
               if bool_decide (0 < size extra)%nat then Some extra else None).
Proof.
  intros E. apply toMessage_steps in E
    as (m1 & m2 & m3 & m4 & m5 & m6 & m7 & m8 & m9 &
        E1 & E2 & E3 & E4 & E5 & E6 & E7 & E8 & E9 & ->).
  frame Extra E1. frame Extra E2. frame Extra E3. frame Extra E4. frame Extra E5.
  frame Extra E6. frame Extra E7. frame Extra E8. frame Extra E9.
  assert (Extra m9 = None) as E0 by (simpl in *; congruence).
  simpl. by case_bool_decide.
Qed.

Lemma toMessage_Facility mapped msg :
  toMessage mapped = Ok msg →
  Facility msg = match mapped !! "facility" with Some (JString v) => v | _ => "" end.
Proof.
  intros E. apply toMessage_steps in E
    as (m1 & m2 & m3 & m4 & m5 & m6 & m7 & m8 & m9 &
        E1 & E2 & E3 & E4 & E5 & E6 & E7 & E8 & E9 & ->).
  frame Facility E1. frame Facility E2. frame Facility E3. frame Facility E4.
  frame Facility E5. frame Facility E6. frame Facility E8. frame Facility E9.
  assert (Facility m6 = "") as E0 by (simpl in *; congruence).
  transitivity (Facility m7); [simpl; case_bool_decide; simpl; congruence|].
  unfold when_set in E7. destruct (mapped !! "facility") as [[]|];
    simpl in E7; try discriminate; try (by injection E7 as <-).
  injection E7 as <-. case_bool_decide as Hl; [done|].
  rewrite E0. destruct s; [done | simpl in Hl; lia].
Qed.

Lemma toMessage_Full mapped msg :
  toMessage mapped = Ok msg →
  Full msg = match mapped !! "full_message" with Some (JString v) => v | _ => "" end.
Proof.
  intros E. apply toMessage_steps in E
    as (m1 & m2 & m3 & m4 & m5 & m6 & m7 & m8 & m9 &
        E1 & E2 & E3 & E4 & E5 & E6 & E7 & E8 & E9 & ->).
  frame Full E1. frame Full E2. frame Full E3. frame Full E5.
  frame Full E6. frame Full E7. frame Full E8. frame Full E9.
  assert (Full m3 = "") as E0 by (simpl in *; congruence).
  transitivity (Full m4); [simpl; case_bool_decide; simpl; congruence|].
  unfold when_set in E4. destruct (mapped !! "full_message") as [[]|];
    simpl in E4; try discriminate; try (by injection E4 as <-).
  injection E4 as <-. case_bool_decide as Hl; [done|].
  rewrite E0. destruct s; [done | simpl in Hl; lia].
Qed.

Lemma toMessage_TimeUnix mapped msg :
  toMessage mapped = Ok msg →
  TimeUnix msg = match mapped !! "timestamp" with
                 | Some (JNumber f) => f
                 | Some (JString s) => default (S754_zero false) (strconv_ParseFloat s)
                 | _ => S754_zero false
                 end.
Proof.
  intros E. apply toMessage_steps in E
    as (m1 & m2 & m3 & m4 & m5 & m6 & m7 & m8 & m9 &
        E1 & E2 & E3 & E4 & E5 & E6 & E7 & E8 & E9 & ->).
  frame TimeUnix E1. frame TimeUnix E2. frame TimeUnix E3. frame TimeUnix E4.
  frame TimeUnix E6. frame TimeUnix E7. frame TimeUnix E8. frame TimeUnix E9.
  assert (TimeUnix m4 = S754_zero false) as E0 by (simpl in *; congruence).
  transitivity (TimeUnix m5); [simpl; case_bool_decide; simpl; congruence|].
  unfold when_set in E5. destruct (mapped !! "timestamp") as [[]|];
    simpl in E5; try (by injection E5 as <-).
  destruct (strconv_ParseFloat s); by injection E5 as <-.
Qed.

End MapperFacts.

(** ** [ReadMessage] on top of [readToMap] *)

Section MessageFacts.
Context `{GelfConsts} `{Library}.

Lemma ReadMessage_after (c c' : Conn) (mapped : gmap string JValue) :
  readToMap c = Ok (mapped, c') →
  ReadMessage c = (msg ← toMessage mapped; Ok (msg, c')).
Proof. unfold ReadMessage. by intros ->. Qed.

Lemma ReadMessage_Ok (c c' c'' : Conn) (mapped : gmap string JValue) (msg : Message) :
  readToMap c = Ok (mapped, c') →
  ReadMessage c = Ok (msg, c'') → toMessage mapped = Ok msg ∧ c'' = c'.
Proof.
  intros Hr. rewrite (ReadMessage_after _ _ _ Hr). intros E.
  apply bind_Ok in E as (m & Em & E). by injection E as -> ->.
Qed.

Lemma ReadMessage_total (c c' : Conn) (mapped : gmap string JValue) :
  readToMap c = Ok (mapped, c') → well_typed mapped →
  ∃ msg, ReadMessage c = Ok (msg, c').
Proof.
  intros Hr Ht. rewrite (ReadMessage_after _ _ _ Hr).
  destruct (toMessage_total mapped Ht) as [msg ->]. by exists msg.
Qed.

Lemma toMessage_extra_at (mapped : gmap string JValue) (msg : Message) (j : string) (v : JValue) :
  toMessage mapped = Ok msg →
  extra_at msg j = Some v ↔ mapped !! String "_"%char j = Some v ∧ v ≠ JNull.
Proof.
  intros E. apply toMessage_Extra in E. simpl in E. unfold extra_at. rewrite E.
  rewrite <- extra_lookup. case_bool_decide as Hs; [done|].
  rewrite (map_size_empty_inv (range_extra (map_to_list mapped) ∅)) by lia.
  by rewrite lookup_empty.
Qed.

(** an empty [full_message] and none at all lead to the same steps *)
Lemma toMessage_empty_full (mapped : gmap string JValue) :
  toMessage (<["full_message" := JString ""]> mapped) =
  toMessage (delete "full_message" mapped).
Proof.
  assert (range_extra (map_to_list (<["full_message" := JString ""]> mapped)) ∅ =
          range_extra (map_to_list (delete "full_message" mapped)) ∅) as Hx.
  { apply map_eq. intros j. apply option_eq. intros v.
    rewrite !extra_lookup, lookup_insert_ne, lookup_delete_ne by done. done. }
  unfold toMessage, when_set. rewrite Hx.
  rewrite lookup_insert_eq, lookup_delete_eq.
  rewrite !lookup_insert_ne, !lookup_delete_ne by done.
  reflexivity.
Qed.

(** C3.  Whenever [readToMap] hands a decoded object to [ReadMessage], the
    message that comes back has under [j] in [Extra] exactly the non-null
    value the object has under ["_" ++ j]: every underscore key with a
    non-null value is found there with its prefix removed and its value
    unchanged, and nothing else is.  [Extra] is set if and only if there is
    such a key, and is never set to an empty map.  A message does come back
    when the values asserted to be strings are strings. *)
Theorem extra_is_the_underscore_keys (c c' : Conn) (mapped : gmap string JValue) :
  readToMap c = Ok (mapped, c') →
  (well_typed mapped → ∃ msg, ReadMessage c = Ok (msg, c')) ∧
  ∀ msg c'', ReadMessage c = Ok (msg, c'') →
    (∀ j v, extra_at msg j = Some v ↔ mapped !! String "_"%char j = Some v ∧ v ≠ JNull) ∧
    (is_Some (Extra msg) ↔ ∃ j v, mapped !! String "_"%char j = Some v ∧ v ≠ JNull) ∧
    Extra msg ≠ Some ∅.
Proof.
  intros Hr. split; [by apply ReadMessage_total|].
  intros msg c'' E. apply (ReadMessage_Ok _ _ _ _ _ Hr) in E as [E _].
  split; [intros j v; by apply toMessage_extra_at|].
  apply toMessage_Extra in E. simpl in E.
  set (extra := range_extra (map_to_list mapped) ∅) in E.
  assert (∀ j v, extra !! j = Some v ↔ mapped !! String "_"%char j = Some v ∧ v ≠ JNull)
    as Hx by apply extra_lookup.
  case_bool_decide as Hs; rewrite E.
  - split.
    + split; [intros _ | by eauto].
      destruct (map_choose extra) as (j & v & Hj).
      { intros ->. rewrite map_size_empty in Hs. lia. }
      exists j, v. by apply Hx.
    + intros [= He]. rewrite He, map_size_empty in Hs. lia.
  - assert (extra = ∅) as He by (apply map_size_empty_inv; lia).
    split; [|discriminate].
    split; [by intros [? [=]]|]. intros (j & v & Hj). apply Hx in Hj.
    rewrite He, lookup_empty in Hj. discriminate.
Qed.

(** C6.  When the decoded object has a string under [facility], the empty
    string included, the message that comes back has that string as its
    [Facility]; and a message does come back when the values asserted to be
    strings are strings. *)
Theorem facility_string_is_assigned (c c' : Conn) (mapped : gmap string JValue) (v : string) :
  readToMap c = Ok (mapped, c') →
  mapped !! "facility" = Some (JString v) →
  (∀ msg c'', ReadMessage c = Ok (msg, c'') → Facility msg = v) ∧
  (well_typed mapped → ∃ msg, ReadMessage c = Ok (msg, c')).
Proof.
  intros Hr Hf. split; [|by apply ReadMessage_total].
  intros msg c'' E. apply (ReadMessage_Ok _ _ _ _ _ Hr) in E as [E _].
  apply toMessage_Facility in E. by rewrite Hf in E.
Qed.

(** C7.  A decoded object with the empty string under [full_message] and the
    same object without the key give the same outcome, message for message;
    and with the empty string the [Full] of the message is empty. *)
Theorem empty_full_message_is_absent (c1 c1' c2 c2' : Conn) (mapped : gmap string JValue) :
  readToMap c1 = Ok (<["full_message" := JString ""]> mapped, c1') →
  readToMap c2 = Ok (delete "full_message" mapped, c2') →
  message_of (ReadMessage c1) = message_of (ReadMessage c2) ∧
  (∀ msg c'', ReadMessage c1 = Ok (msg, c'') → Full msg = "").
Proof.
  intros H1 H2. split.
  - rewrite (ReadMessage_after _ _ _ H1), (ReadMessage_after _ _ _ H2).
    rewrite toMessage_empty_full.
    by destruct (toMessage (delete "full_message" mapped)).
  - intros msg c'' E. apply (ReadMessage_Ok _ _ _ _ _ H1) in E as [E _].
    apply toMessage_Full in E. by rewrite lookup_insert_eq in E.
Qed.

(** C8.  In the message that comes back, [TimeUnix] is the number found under
    [timestamp], or the number a string found there parses to; it is the
    zero the message starts with when the string does not parse, when the
    value is of any other kind, and when the key is absent.  Whether a message
    comes back is settled by the six keys asserted to be strings alone, so no
    value under [timestamp] makes the call fail. *)
Theorem timestamp_is_lenient (c c' : Conn) (mapped : gmap string JValue) :
  readToMap c = Ok (mapped, c') →
  (∀ msg c'', ReadMessage c = Ok (msg, c'') →
     (∀ f, mapped !! "timestamp" = Some (JNumber f) → TimeUnix msg = f) ∧
     (∀ s f, mapped !! "timestamp" = Some (JString s) →
             strconv_ParseFloat s = Some f → TimeUnix msg = f) ∧
     (∀ s, mapped !! "timestamp" = Some (JString s) →
           strconv_ParseFloat s = None → TimeUnix msg = TimeUnix new_Message) ∧
     (∀ v, mapped !! "timestamp" = Some v →
           (∀ f, v ≠ JNumber f) → (∀ s, v ≠ JString s) →
           TimeUnix msg = TimeUnix new_Message) ∧
     (mapped !! "timestamp" = None → TimeUnix msg = TimeUnix new_Message)) ∧
  (well_typed mapped ↔ ∃ msg, ReadMessage c = Ok (msg, c')).
Proof.
  intros Hr. split.
  - intros msg c'' E. apply (ReadMessage_Ok _ _ _ _ _ Hr) in E as [E _].
    apply toMessage_TimeUnix in E. repeat split.
    + intros f Hf. by rewrite Hf in E.
    + intros s f Hs Hp. by rewrite Hs, Hp in E.
    + intros s Hs Hp. by rewrite Hs, Hp in E.
    + intros v Hv Hn Hs. rewrite Hv in E. destruct v; try done.
      * by destruct (Hn f).
      * by destruct (Hs s).
    + intros Hn. by rewrite Hn in E.
  - split; [by apply ReadMessage_total|].
    intros [msg E]. apply (ReadMessage_Ok _ _ _ _ _ Hr) in E as [E _].
    by eapply toMessage_Ok_typed.
Qed.

(** C9.  When the decoded object has a non-null value under the key that is
    the single character [_], the message that comes back has that value in
    [Extra] under the empty key; and a message does come back when the values
    asserted to be strings are strings. *)
Theorem bare_underscore_goes_to_empty_key (c c' : Conn) (mapped : gmap string JValue) (v : JValue) :
  readToMap c = Ok (mapped, c') →
  mapped !! "_" = Some v → v ≠ JNull →
  (∀ msg c'', ReadMessage c = Ok (msg, c'') → extra_at msg "" = Some v) ∧
  (well_typed mapped → ∃ msg, ReadMessage c = Ok (msg, c')).
Proof.
  intros Hr Hv Hn. split; [|by apply ReadMessage_total].
  intros msg c'' E. apply (ReadMessage_Ok _ _ _ _ _ Hr) in E as [E _].
  by apply (toMessage_extra_at _ _ "" v E).
Qed.

End MessageFacts.

(** ** Where the arrivals end up *)

Lemma byte_of_to_nat (i : nat) : (i ≤ 255)%nat → Byte.to_nat (byte_of i) = i.
Proof.
  intros Hi. unfold byte_of. destruct (Byte.of_nat i) as [b|] eqn:E.
  - by apply Byte.to_of_nat.
  - apply Byte.of_nat_None_iff in E. lia.
Qed.

Lemma length_placed (slots : list bytes) (arrivals : list (byte * bytes)) :
  length (placed slots arrivals) = length slots.
Proof.
  revert slots. induction arrivals as [|a arrivals IH]; intros slots; [done|].
  cbn [placed foldl]. fold (placed (<[Byte.to_nat a.1 := a.2]> slots) arrivals).
  by rewrite IH, length_insert.
Qed.

Lemma placed_untouched (slots : list bytes) (arrivals : list (byte * bytes)) (j : nat) :
  j ∉ Byte.to_nat <$> arrivals.*1 →
  placed slots arrivals !! j = slots !! j.
Proof.
  revert slots. induction arrivals as [|a arrivals IH]; intros slots Hj; [done|].
  cbn [placed foldl]. fold (placed (<[Byte.to_nat a.1 := a.2]> slots) arrivals).
  cbn [fmap list_fmap] in Hj. apply not_elem_of_cons in Hj as [Hne Hj].
  rewrite IH by done. by apply list_lookup_insert_ne.
Qed.

Lemma placed_once (slots : list bytes) (arrivals : list (byte * bytes)) (s : byte) (p : bytes) :
  NoDup (Byte.to_nat <$> arrivals.*1) →
  (s, p) ∈ arrivals → (Byte.to_nat s < length slots)%nat →
  placed slots arrivals !! Byte.to_nat s = Some p.
Proof.
  revert slots. induction arrivals as [|a arrivals IH]; intros slots Hnd Hin Hs.
  - by apply elem_of_nil in Hin.
  - cbn [placed foldl]. fold (placed (<[Byte.to_nat a.1 := a.2]> slots) arrivals).
    cbn [fmap list_fmap] in Hnd. apply NoDup_cons in Hnd as [Hfresh Hnd].
    apply elem_of_cons in Hin as [<- | Hin].
    + rewrite placed_untouched by done. by apply list_lookup_insert_eq.
    + apply IH; [done | done | by rewrite length_insert].
Qed.

Lemma concat_nonempty (l : list bytes) : concat l ≠ [] ↔ ∃ x, x ∈ l ∧ x ≠ [].
Proof.
  induction l as [|x l IH]; simpl.
  - split; [done | by intros (x & Hx%elem_of_nil & _)].
  - split.
    + intros Hne. destruct x as [|b x].
      * apply IH in Hne as (y & Hy & Hyn). exists y. split; [by right | done].
      * exists (b :: x). split; [by left | done].
    + intros (y & Hy & Hyn) E. apply app_eq_nil in E as [Ex El].
      apply elem_of_cons in Hy as [Hy | Hy]; [congruence|].
      revert El. apply IH. eauto.
Qed.

Lemma concat_replicate_nil (k : nat) : concat (replicate k ([] : bytes)) = [].
Proof. induction k; [done | by simpl]. Qed.

Lemma concat_single_slot (t i : nat) (p : bytes) :
  (i < t)%nat → concat (<[i := p]> (replicate t [])) = p.
Proof.
  intros Hi. rewrite insert_replicate_lt by done.
  rewrite concat_app. cbn [concat]. rewrite !concat_replicate_nil.
  by rewrite app_nil_r.
Qed.

Lemma placed_same_index (slots : list bytes) (s : byte) (earlier : list bytes) (final : bytes) :
  placed slots ((λ p, (s, p)) <$> earlier ++ [final]) = <[Byte.to_nat s := final]> slots.
Proof.
  revert slots. induction earlier as [|p earlier IH]; intros slots; [done|].
  cbn [app fmap list_fmap placed foldl].
  fold (placed (<[Byte.to_nat s := p]> slots) ((λ p, (s, p)) <$> earlier ++ [final])).
  rewrite IH. apply list_insert_insert_eq.
Qed.

Lemma placed_in_any_order (pieces : list bytes) (order : list nat) :
  (length pieces ≤ 255)%nat →
  order ≡ₚ List.seq 0 (length pieces) →
  placed (replicate (length pieces) [])
         ((λ i, (byte_of i, default [] (pieces !! i))) <$> order) = pieces.
Proof.
  intros Hlen Hp.
  assert (∀ i, i ∈ order ↔ (i < length pieces)%nat) as Hin.
  { intros i. rewrite Hp, elem_of_seq. lia. }
  assert (NoDup order) as Hnd by (rewrite Hp; apply NoDup_seq).
  set (arrivals := (λ i, (byte_of i, default [] (pieces !! i))) <$> order).
  assert (Byte.to_nat <$> arrivals.*1 = order) as Hidx.
  { unfold arrivals. rewrite <- !list_fmap_compose.
    rewrite <- (list_fmap_id order) at 2. apply Forall_fmap_ext, Forall_forall.
    intros i Hi. apply Hin in Hi. cbn. apply byte_of_to_nat. lia. }
  apply list_eq. intros j.
  destruct (decide (j < length pieces)%nat) as [Hj|Hj].
  - destruct (lookup_lt_is_Some_2 pieces j Hj) as [p Ep]. rewrite Ep.
    rewrite <- (byte_of_to_nat j) by lia.
    apply placed_once.
    + by rewrite Hidx.
    + unfold arrivals. apply list_elem_of_fmap. exists j.
      rewrite Ep. split; [done | by apply Hin].
    + rewrite length_replicate, byte_of_to_nat; lia.
  - rewrite (lookup_ge_None_2 pieces) by lia.
    apply lookup_ge_None_2. rewrite length_placed, length_replicate. lia.
Qed.

(** ** Slices, and one turn of the loop *)

Section LoopFacts.
Context `{GelfConsts}.

Lemma view_same (a : bytes) (s : slice) : bytes_Equal (view a s) (view a s) = true.
Proof. unfold bytes_Equal. by apply bool_decide_eq_true_2. Qed.

Lemma reslice_ok (a : bytes) (s : slice) (i j : nat) :
  (i ≤ j)%nat → (lo s + j ≤ length a)%nat →
  reslice a s i j = Ok (Slice (lo s + i) (lo s + j)).
Proof. intros. unfold reslice. by rewrite bool_decide_eq_true_2. Qed.

Lemma index_ok (a : bytes) (s : slice) (i : nat) (b : byte) :
  (i < len s)%nat → a !! (lo s + i)%nat = Some b → index a s i = Ok b.
Proof. intros ? E. unfold index. by rewrite bool_decide_eq_true_2, E. Qed.

Lemma store_front (a d : bytes) (L : nat) :
  store a (Slice 0 L) d = d ++ drop (length d) a.
Proof. done. Qed.

Lemma length_store_front (a d : bytes) :
  (length d ≤ length a)%nat → length (d ++ drop (length d) a) = length a.
Proof. intros. rewrite length_app, length_drop. lia. Qed.

Lemma more_true (got : nat) (v : vars) :
  (got < 128)%nat → (got < Byte.to_nat (total v))%nat → more got v = true.
Proof.
  intros. unfold more, int_of_byte.
  rewrite bool_decide_eq_true_2 by done.
  rewrite (bool_decide_eq_true_2 (_ < _)) by lia. by rewrite orb_true_r.
Qed.

Lemma more_false (got : nat) (v : vars) :
  (1 ≤ Byte.to_nat (total v))%nat → (Byte.to_nat (total v) ≤ got)%nat → more got v = false.
Proof.
  intros. unfold more, int_of_byte.
  rewrite (bool_decide_eq_false_2 (_ = 0)) by lia.
  rewrite (bool_decide_eq_false_2 (_ < _)) by lia. by rewrite andb_false_r.
Qed.

Lemma loop_S (fuel got : nat) (v : vars) (c : Conn) :
  loop (S fuel) got v c =
    if more got v then
      '(f, c') ← iteration v c;
      match f with
      | Continue v' => loop fuel (S got) v' c'
      | Break v' => Ok (v', c')
      end
    else Ok (v, c).
Proof. done. Qed.

Lemma more_at_128 (got : nat) (v : vars) : (128 ≤ got)%nat → more got v = false.
Proof. intros. unfold more. by rewrite bool_decide_eq_false_2 by lia. Qed.

(** fuel beyond what is left to 128 changes nothing: the 128 units given to
    the loop in [reassemble] are enough *)
Lemma loop_fuel (fuel : nat) :
  ∀ (got : nat) (v : vars) (c : Conn),
    (128 ≤ fuel + got)%nat → loop (S fuel) got v c = loop fuel got v c.
Proof.
  induction fuel as [|fuel IH]; intros got v c Hf.
  - cbn [loop]. by rewrite more_at_128 by lia.
  - rewrite (loop_S (S fuel)), (loop_S fuel).
    destruct (more got v); [|done].
    destruct (iteration v c) as [[[v'|v'] c']| | |]; cbn [mbind outcome_bind]; try done.
    apply IH. lia.
Qed.

Lemma more_first : more 0 vars0 = true.
Proof. done. Qed.

(** closes a case in which the call has stopped with another outcome *)
Ltac bail := split; intros; first [discriminate | intros ?; discriminate].

Lemma reslice_cases (a : bytes) (s : slice) (i j : nat) :
  reslice a s i j = Ok (Slice (lo s + i) (lo s + j)) ∨ reslice a s i j = Panic.
Proof. unfold reslice. case_bool_decide; eauto. Qed.

Lemma index_cases (a : bytes) (s : slice) (i : nat) :
  (∃ b, index a s i = Ok b) ∨ index a s i = Panic.
Proof.
  unfold index. case_bool_decide; [|by right].
  destruct (a !! (lo s + i)%nat); cbn; eauto.
Qed.

Lemma dispatch_aliased (v : vars) :
  aliased v →
  (∀ e1 e2, dispatch v ≠ Err (OutOfBand e1 e2)) ∧
  (∀ v', dispatch v = Ok (Continue v') → aliased v').
Proof.
  intros [Hlo Ho]. unfold dispatch.
  destruct (bytes_Equal (view (arr v) (cHead v)) magicChunked).
  - destruct (reslice_cases (arr v) (cBuf v) 2 (2 + 8)) as [-> | ->];
      cbn [mbind outcome_bind]; [|bail].
    destruct (index_cases (arr v) (cBuf v) (2 + 8)) as [[seq' ->] | ->];
      cbn [mbind outcome_bind]; [|bail].
    destruct (index_cases (arr v) (cBuf v) (2 + 8 + 1)) as [[total' ->] | ->];
      cbn [mbind outcome_bind]; [|bail].
    rewrite Hlo. cbn [Nat.add].
    assert (differs (arr v) (Slice 2 10) (ocid v) = false) as ->.
    { destruct Ho as [-> | ->]; [done|]. cbn [differs]. by rewrite view_same. }
    destruct (reslice_cases (arr v) (cBuf v) chunkedHeaderLen (len (cBuf v))) as [-> | ->];
      do 2 (match goal with
            | |- context [if bool_decide ?P then Ok () else Panic] =>
                destruct (bool_decide P)
            end);
      cbn [mbind outcome_bind]; try bail.
    split; [by intros|]. intros v' [= <-]. split; [done|].
    cbn [ocid]. destruct Ho as [-> | ->]; by right.
  - case_bool_decide; bail.
Qed.

Lemma iteration_aliased (v : vars) (c : Conn) :
  aliased v →
  (∀ e1 e2, iteration v c ≠ Err (OutOfBand e1 e2)) ∧
  (∀ v' c', iteration v c = Ok (Continue v', c') → aliased v').
Proof.
  intros [Hlo Ho]. unfold iteration, conn_Read.
  destruct (pending c) as [|[d|e] rest]; cbn [mbind outcome_bind];
    try (bail).
  set (a := store (arr v) (cBuf v) (take (len (cBuf v)) d)).
  destruct (reslice_cases a (cBuf v) 0 2) as [-> | ->]; cbn [mbind outcome_bind]; [|bail].
  destruct (reslice_cases a (cBuf v) 0 (length (take (len (cBuf v)) d))) as [-> | ->];
    cbn [mbind outcome_bind]; [|bail].
  match goal with |- context [dispatch ?w] => set (v1 := w) end.
  assert (aliased v1) as Ha by (split; [cbn; lia | done]).
  destruct (dispatch_aliased v1 Ha) as (Hne & Hc).
  destruct (dispatch v1) as [[v'|v']| | |] eqn:Ed; cbn [mbind outcome_bind];
    try (bail).
  - split; [by intros|]. intros w c' [= <- <-]. by apply Hc.
  - split; [|by intros]. intros e1 e2 [= -> ]. by eapply Hne.
Qed.

(** The loop never reports an out-of-band message id. *)
Lemma loop_never_out_of_band (fuel : nat) :
  ∀ (got : nat) (v : vars) (c : Conn),
    aliased v → ∀ e1 e2, loop fuel got v c ≠ Err (OutOfBand e1 e2).
Proof.
  induction fuel as [|fuel IH]; intros got v c Ha e1 e2; [done|].
  cbn [loop]. destruct (more got v); [|done].
  destruct (iteration_aliased v c Ha) as [Hne Hc].
  destruct (iteration v c) as [[[v'|v'] c']| | |] eqn:Ei; cbn [mbind outcome_bind]; try done.
  - apply IH. by eapply Hc.
  - intros [= ->]. by eapply Hne.
Qed.

Lemma reassemble_never_out_of_band (c : Conn) (e1 e2 : bytes) :
  reassemble c ≠ Err (OutOfBand e1 e2).
Proof.
  unfold reassemble.
  assert (aliased vars0) as Ha by (split; [done | by left]).
  pose proof (loop_never_out_of_band 128 0 vars0 c Ha e1 e2) as Hne.
  destruct (loop 128 0 vars0 c) as [[v c']| | |]; cbn [mbind outcome_bind];
    first [intros ?; discriminate | intros [= ->]; by apply Hne].
Qed.

Lemma dispatch_framed (v : vars) (f : flow) :
  framed v → dispatch v = Ok f →
  match f with Continue v' | Break v' => framed v' end.
Proof.
  intros [Hh Hlo]. unfold dispatch.
  destruct (bytes_Equal (view (arr v) (cHead v)) magicChunked).
  - destruct (reslice_cases (arr v) (cBuf v) 2 (2 + 8)) as [-> | ->];
      cbn [mbind outcome_bind]; [|done].
    destruct (index_cases (arr v) (cBuf v) (2 + 8)) as [[seq' ->] | ->];
      cbn [mbind outcome_bind]; [|done].
    destruct (index_cases (arr v) (cBuf v) (2 + 8 + 1)) as [[total' ->] | ->];
      cbn [mbind outcome_bind]; [|done].
    destruct (differs _ _ _); [done|].
    destruct (reslice_cases (arr v) (cBuf v) chunkedHeaderLen (len (cBuf v))) as [-> | ->];
      do 2 (match goal with
            | |- context [if bool_decide ?P then Ok () else Panic] =>
                destruct (bool_decide P)
            end);
      cbn [mbind outcome_bind]; try done.
    by intros [= <-].
  - case_bool_decide; [done|]. by intros [= <-].
Qed.

Lemma iteration_framed (v : vars) (c c' : Conn) (f : flow) :
  lo (cBuf v) = 0%nat → iteration v c = Ok (f, c') →
  match f with Continue v' | Break v' => framed v' end.
Proof.
  intros Hlo. unfold iteration, conn_Read.
  destruct (pending c) as [|[d|e] rest]; cbn [mbind outcome_bind]; try done.
  set (a := store (arr v) (cBuf v) (take (len (cBuf v)) d)).
  destruct (reslice_cases a (cBuf v) 0 2) as [-> | ->]; cbn [mbind outcome_bind]; [|done].
  destruct (reslice_cases a (cBuf v) 0 (length (take (len (cBuf v)) d))) as [-> | ->];
    cbn [mbind outcome_bind]; [|done].
  match goal with |- context [dispatch ?w] => set (v1 := w) end.
  assert (framed v1) as Hf by (split; cbn; rewrite Hlo; done).
  destruct (dispatch v1) as [f1| | |] eqn:Ed; cbn [mbind outcome_bind]; try done.
  intros [= <- <-]. by eapply dispatch_framed.
Qed.

Lemma loop_framed (fuel : nat) :
  ∀ (got : nat) (v v' : vars) (c c' : Conn),
    lo (cBuf v) = 0%nat → loop fuel got v c = Ok (v', c') →
    v' = v ∨ framed v'.
Proof.
  induction fuel as [|fuel IH]; intros got v v' c c' Hlo; cbn [loop].
  - intros [= <- <-]. by left.
  - destruct (more got v); [|intros [= <- <-]; by left].
    destruct (iteration v c) as [[f c1]| | |] eqn:Ei; cbn [mbind outcome_bind]; try done.
    apply iteration_framed in Ei; [|done].
    destruct f as [v1|v1].
    + intros El. right. destruct (IH _ _ _ _ _ (proj2 Ei) El) as [-> | Hf]; done.
    + intros [= <- <-]. by right.
Qed.


Lemma iteration_not_chunked (v : vars) (c : Conn) (L : nat) (d : bytes) (rest : list event) :
  cBuf v = Slice 0 L → (2 ≤ L ≤ length (arr v))%nat →
  pending c = Datagram d :: rest →
  (2 ≤ length d)%nat → take 2 d ≠ magicChunked →
  iteration v c =
    if bool_decide (0 < int_of_byte (total v)) then Err OutOfBandNotChunked
    else Ok (Break (after_plain v (take L d)),
             {| pending := rest; offered := offered c ++ [L] |}).
Proof.
  intros Hb HL Hp Hd Hm.
  unfold iteration, conn_Read. rewrite Hp, Hb. unfold len at 1 2. cbn [lo hi].
  rewrite Nat.sub_0_r. cbn [mbind outcome_bind]. rewrite store_front.
  set (d' := take L d).
  assert (2 ≤ length d' ≤ L)%nat as Hd' by (unfold d'; rewrite length_take; lia).
  assert (length (d' ++ drop (length d') (arr v)) = length (arr v)) as Hla
    by (apply length_store_front; lia).
  rewrite !reslice_ok by (cbn [lo hi]; rewrite ?Hla; lia).
  cbn [mbind outcome_bind lo Nat.add]. unfold dispatch. cbn [arr cHead total].
  assert (view (d' ++ drop (length d') (arr v)) (Slice 0 2) = take 2 d) as ->.
  { unfold view, len. cbn [lo hi Nat.sub]. rewrite drop_0, take_app_le by lia.
    unfold d'. rewrite take_take. f_equal. lia. }
  unfold bytes_Equal. rewrite (bool_decide_eq_false_2 _ Hm).
  unfold len. cbn [lo hi]. rewrite ?Nat.sub_0_r.
  by case_bool_decide.
Qed.

Lemma reassemble_single (d : bytes) (rest : list event) (log : list nat) :
  (2 ≤ length d ≤ ChunkSize)%nat → take 2 d ≠ magicChunked →
  reassemble {| pending := Datagram d :: rest; offered := log |} =
    Ok (take 2 d, d, {| pending := rest; offered := log ++ [ChunkSize] |}).
Proof.
  intros Hd Hm. unfold reassemble. rewrite (loop_S 127), more_first.
  rewrite (iteration_not_chunked vars0 _ ChunkSize d rest);
    [ | done | cbn [vars0 arr]; rewrite length_replicate; lia | done | lia | done ].
  cbn [vars0 total]. rewrite bool_decide_eq_false_2 by done.
  cbn [mbind outcome_bind offered]. unfold gather. cbn [after_plain length_].
  rewrite bool_decide_eq_false_2 by done. rewrite take_ge by lia.
  unfold view, len, after_plain. cbn [arr cHead cBuf lo hi Nat.sub].
  rewrite ?Nat.sub_0_r, !drop_0.
  by rewrite take_app_le, take_app_length by lia.
Qed.

Lemma reassemble_head (c c' : Conn) (cHead cBuf : bytes) :
  reassemble c = Ok (cHead, cBuf, c') → (2 ≤ length cBuf)%nat → cHead = take 2 cBuf.
Proof.
  unfold reassemble. rewrite (loop_S 127), more_first.
  destruct (iteration vars0 c) as [[f c1]| | |] eqn:Ei; cbn [mbind outcome_bind]; try done.
  apply iteration_framed in Ei; [|done].
  assert (∀ v, framed v → gather v = (cHead, cBuf) → (2 ≤ length cBuf)%nat →
               cHead = take 2 cBuf) as Hg.
  { intros v [Hh Hlo] Eg Hlen. unfold gather in Eg.
    case_bool_decide; injection Eg as <- <-.
    - by rewrite take_app_le.
    - rewrite Hh. unfold view in *. rewrite Hlo, !drop_0 in *.
      rewrite take_take. f_equal.
      rewrite length_take in Hlen. unfold len at 1. cbn [lo hi]. lia. }
  destruct f as [v1|v1].
  - destruct (loop 127 1 v1 c1) as [[v' c2]| | |] eqn:El; cbn [mbind outcome_bind]; try done.
    intros [= Eg <-]. apply (Hg v'); [|done].
    destruct (loop_framed _ _ _ _ _ _ (proj2 Ei) El) as [-> | Hf]; done.
  - intros [= Eg <-]. by apply (Hg v1).
Qed.

End LoopFacts.

(** ** The reassembly loop on a run of chunks *)

Section ChunkRuns.
Context `{GelfConsts}.
Hypothesis magic_len : length magicChunked = 2%nat.
Hypothesis header_len : chunkedHeaderLen = 12%nat.

Lemma chunk_datagram_length id s tt payload :
  length id = 8%nat →
  length (chunk_datagram id s tt payload) = (12 + length payload)%nat.
Proof.
  intros Hid. unfold chunk_datagram. rewrite !length_app, magic_len, Hid. simpl. lia.
Qed.

Lemma chunk_datagram_head id s tt payload rest :
  take 2 (chunk_datagram id s tt payload ++ rest) = magicChunked.
Proof.
  unfold chunk_datagram. rewrite <- !app_assoc. by apply take_app_length'.
Qed.

Lemma chunk_datagram_seq id s tt payload rest :
  length id = 8%nat →
  (chunk_datagram id s tt payload ++ rest) !! 10%nat = Some s.
Proof.
  intros Hid. unfold chunk_datagram. rewrite <- !app_assoc.
  rewrite lookup_app_r by lia. rewrite lookup_app_r by lia.
  by rewrite magic_len, Hid.
Qed.

Lemma chunk_datagram_total id s tt payload rest :
  length id = 8%nat →
  (chunk_datagram id s tt payload ++ rest) !! 11%nat = Some tt.
Proof.
  intros Hid. unfold chunk_datagram. rewrite <- !app_assoc.
  rewrite lookup_app_r by lia. rewrite lookup_app_r by lia.
  by rewrite magic_len, Hid.
Qed.

Lemma chunk_datagram_payload id s tt payload rest :
  length id = 8%nat →
  take (length payload) (drop 12 (chunk_datagram id s tt payload ++ rest)) = payload.
Proof.
  intros Hid. unfold chunk_datagram.
  replace ((magicChunked ++ id ++ [s; tt] ++ payload) ++ rest)
    with ((magicChunked ++ id ++ [s; tt]) ++ payload ++ rest)
    by (by rewrite <- !app_assoc).
  rewrite drop_app_length' by (rewrite !length_app, magic_len, Hid; done).
  apply take_app_length.
Qed.


Lemma dispatch_chunk (v : vars) id s tt payload tail :
  let d := chunk_datagram id s tt payload in
  length id = 8%nat →
  arr v = d ++ tail → cBuf v = Slice 0 (length d) → cHead v = Slice 0 2 →
  ocid v = None ∨ ocid v = Some (Slice 2 10) →
  (Byte.to_nat s < length (match ocid v with
                           | None => replicate (Byte.to_nat tt) []
                           | _ => chunks v
                           end))%nat →
  dispatch v =
    Ok (Continue
      {| arr := arr v; cBuf := cBuf v;
         n := Z.of_nat (length payload);
         length_ := length_ v + Z.of_nat (length payload);
         cid := Some (Slice 2 10); ocid := Some (Slice 2 10);
         seq := s; total := tt; cHead := cHead v;
         chunks := <[Byte.to_nat s := payload]>
                     (match ocid v with
                      | None => replicate (Byte.to_nat tt) []
                      | _ => chunks v
                      end) |}).
Proof.
  intros d Hid Ha Hb Hh Ho Hs.
  assert (length d = (12 + length payload)%nat) as Hlen by by apply chunk_datagram_length.
  unfold dispatch. rewrite Hh, Ha, Hb.
  assert (view (d ++ tail) (Slice 0 2) = magicChunked) as ->
    by apply chunk_datagram_head.
  unfold bytes_Equal at 1. rewrite (bool_decide_eq_true_2 (magicChunked = _)) by done.
  rewrite (reslice_ok _ _ 2 (2 + 8)) by (cbn [lo hi]; rewrite ?length_app; lia).
  rewrite (index_ok _ _ (2 + 8) s)
    by (first [by apply chunk_datagram_seq | unfold len; cbn [lo hi]; lia]).
  rewrite (index_ok _ _ (2 + 8 + 1) tt)
    by (first [by apply chunk_datagram_total | unfold len; cbn [lo hi]; lia]).
  cbn [mbind outcome_bind lo hi Nat.add].
  assert (differs (d ++ tail) (Slice 2 10) (ocid v) = false) as ->.
  { destruct Ho as [-> | ->]; [done|]. cbn [differs]. by rewrite view_same. }
  unfold len. cbn [lo hi]. rewrite Nat.sub_0_r, header_len, Hlen.
  rewrite (bool_decide_eq_true_2 (0 ≤ _)) by lia.
  rewrite (reslice_ok _ _ 12 (12 + length payload))
    by (cbn [lo hi]; rewrite ?length_app; lia).
  rewrite (bool_decide_eq_true_2 _ Hs).
  cbn [mbind outcome_bind lo hi].
  assert (view (d ++ tail) (Slice (0 + 12) (0 + (12 + length payload))) = payload) as ->.
  { unfold view, len. cbn [lo hi].
    replace (0 + (12 + length payload) - (0 + 12))%nat with (length payload) by lia.
    by apply chunk_datagram_payload. }
  assert (Z.of_nat (12 + length payload) - Z.of_nat 12 = Z.of_nat (length payload)) as -> by lia.
  destruct Ho as [-> | ->]; done.
Qed.

Lemma iteration_chunk (v : vars) (c : Conn) (L : nat) id s tt payload rest :
  let d := chunk_datagram id s tt payload in
  length id = 8%nat →
  cBuf v = Slice 0 L → (L ≤ length (arr v))%nat → (length d ≤ L)%nat →
  ocid v = None ∨ ocid v = Some (Slice 2 10) →
  pending c = Datagram d :: rest →
  (Byte.to_nat s < length (match ocid v with
                           | None => replicate (Byte.to_nat tt) []
                           | _ => chunks v
                           end))%nat →
  iteration v c =
    Ok (Continue (after_chunk v id s tt payload),
        {| pending := rest; offered := offered c ++ [L] |}).
Proof.
  intros d Hid Hb HL Hd Ho Hp Hs.
  assert (length d = (12 + length payload)%nat) as Hlen by by apply chunk_datagram_length.
  unfold iteration, conn_Read. rewrite Hp, Hb. unfold len at 1 2. simpl lo. simpl hi.
  rewrite Nat.sub_0_r, take_ge by done. cbn [mbind outcome_bind].
  rewrite store_front.
  rewrite !reslice_ok by (cbn [lo hi]; rewrite ?length_store_front; lia).
  cbn [mbind outcome_bind lo Nat.add].
  erewrite dispatch_chunk; [done | done | done | done | done | done | done].
Qed.

Lemma loop_chunks (id : bytes) (tt : byte) (arrivals : list (byte * bytes)) :
  length id = 8%nat →
  ∀ (fuel got : nat) (v : vars) (c : Conn) (L : nat) (rest : list event),
    cBuf v = Slice 0 L → (L ≤ length (arr v))%nat →
    ocid v = Some (Slice 2 10) → total v = tt →
    length (chunks v) = Byte.to_nat tt →
    pending c = (Datagram <$> datagrams id tt arrivals) ++ rest →
    no_longer_than L (datagrams id tt arrivals) →
    Forall (λ a, (Byte.to_nat a.1 < Byte.to_nat tt)%nat) arrivals →
    (1 ≤ got)%nat → (got + length arrivals = Byte.to_nat tt)%nat →
    (Byte.to_nat tt ≤ 128)%nat → (length arrivals ≤ fuel)%nat →
    ∃ v' c', loop fuel got v c = Ok (v', c') ∧
             chunks v' = placed (chunks v) arrivals ∧
             length_ v' = length_ v + Z.of_nat (length (concat arrivals.*2)) ∧
             pending c' = rest.
Proof.
  intros Hid. induction arrivals as [|[s p] arrivals IH];
    intros fuel got v c L rest Hb HL Ho Ht Hch Hp Hn Hs Hg Hsum H128 Hf.
  - exists v, c. simpl in *. split; [|split; [done|split; [lia|done]]].
    destruct fuel; [done|]. simpl. rewrite more_false; [done | rewrite Ht; lia | rewrite Ht; lia].
  - cbn [length] in Hf, Hsum. cbn [datagrams fmap list_fmap no_longer_than] in Hn.
    destruct Hn as [Hd Hn]. cbn [fst snd] in Hd, Hn.
    apply Forall_cons in Hs as [Hs1 Hs]. cbn [fst] in Hs1.
    destruct fuel as [|fuel]; [lia|]. cbn [loop].
    rewrite more_true by (rewrite ?Ht; lia).
    rewrite (iteration_chunk v c L id s tt p ((Datagram <$> datagrams id tt arrivals) ++ rest))
      by (rewrite ?Ho, ?Hch; eauto).
    cbn [mbind outcome_bind].
    destruct (IH fuel (S got) (after_chunk v id s tt p)
                {| pending := (Datagram <$> datagrams id tt arrivals) ++ rest;
                   offered := offered c ++ [L] |}
                (length (chunk_datagram id s tt p)) rest)
      as (v' & c' & El & Ech & Elen & Ep);
      try done; try lia.
    { cbn [after_chunk arr]. rewrite length_store_front; lia. }
    { cbn [after_chunk chunks]. by rewrite Ho, length_insert. }
    exists v', c'. split; [done|]. split; [|split; [|done]].
    + rewrite Ech. cbn [after_chunk chunks]. by rewrite Ho.
    + rewrite Elen. cbn [after_chunk length_ fmap list_fmap concat snd].
      rewrite length_app. lia.
Qed.
Lemma reassemble_chunks (id : bytes) (tt : byte) (arrivals : list (byte * bytes))
    (rest : list event) (log : list nat) :
  length id = 8%nat →
  length arrivals = Byte.to_nat tt →
  (1 ≤ Byte.to_nat tt ≤ 128)%nat →
  Forall (λ a, (Byte.to_nat a.1 < Byte.to_nat tt)%nat) arrivals →
  no_longer_than ChunkSize (datagrams id tt arrivals) →
  concat arrivals.*2 ≠ [] →
  ∃ cHead c',
    reassemble {| pending := (Datagram <$> datagrams id tt arrivals) ++ rest;
                  offered := log |}
      = Ok (cHead, concat (placed (replicate (Byte.to_nat tt) []) arrivals), c') ∧
    pending c' = rest.
Proof.
  intros Hid Hlen Ht Hs Hn Hpos.
  destruct arrivals as [|[s p] arrivals]; [simpl in Hlen; lia|].
  cbn [length] in Hlen. cbn [datagrams fmap list_fmap no_longer_than] in Hn.
  destruct Hn as [Hd Hn]. cbn [fst snd] in Hd, Hn.
  apply Forall_cons in Hs as [Hs1 Hs]. cbn [fst] in Hs1.
  unfold reassemble. rewrite (loop_S 127), more_first.
  rewrite (iteration_chunk vars0 _ ChunkSize id s tt p
             ((Datagram <$> datagrams id tt arrivals) ++ rest));
    [ | done | done | cbn [vars0 arr]; by rewrite length_replicate | done | by left
      | done | cbn [vars0 ocid]; by rewrite length_replicate ].
  cbn [mbind outcome_bind].
  destruct (loop_chunks id tt arrivals Hid 127 1 (after_chunk vars0 id s tt p)
              {| pending := (Datagram <$> datagrams id tt arrivals) ++ rest;
                 offered := log ++ [ChunkSize] |}
              (length (chunk_datagram id s tt p)) rest)
    as (v' & c' & El & Ech & Elen & Ep); try done; try lia.
  { cbn [after_chunk arr vars0]. rewrite length_store_front; rewrite length_replicate; lia. }
  { cbn [after_chunk chunks vars0 ocid]. by rewrite length_insert, length_replicate. }
  cbn [offered] in *. rewrite El. cbn [mbind outcome_bind].
  unfold gather. rewrite bool_decide_eq_true_2; cycle 1.
  { rewrite Elen. cbn [after_chunk length_ vars0].
    cbn [fmap list_fmap concat snd] in Hpos.
    assert (0 < length (p ++ concat arrivals.*2))%nat
      by (destruct (p ++ concat arrivals.*2); [done | simpl; lia]).
    rewrite length_app in *. lia. }
  rewrite Ech. cbn [after_chunk chunks vars0 ocid].
  eexists _, c'. split; [reflexivity | done].
Qed.

(** C1, as amended.  A payload cut at any places into at most 128 pieces and
    sent as chunks with one message id and the number of pieces as declared
    count, arriving in any order of the indices, is reassembled byte for
    byte, provided that no datagram is longer than [ChunkSize] or than a
    datagram received before it in the same call, and that the payload is not
    empty. *)
Theorem chunks_reassemble_to_the_payload (id : bytes) (pieces : list bytes) (order : list nat)
    (rest : list event) (log : list nat) :
  length id = 8%nat →
  (1 ≤ length pieces ≤ 128)%nat →
  order ≡ₚ List.seq 0 (length pieces) →
  no_longer_than ChunkSize (in_pieces id pieces order) →
  concat pieces ≠ [] →
  ∃ cHead c',
    reassemble {| pending := (Datagram <$> in_pieces id pieces order) ++ rest;
                  offered := log |}
      = Ok (cHead, concat pieces, c') ∧
    pending c' = rest.
Proof.
  intros Hid Hlen Hp Hn Hne. unfold in_pieces in *.
  set (arrivals := (λ i, (byte_of i, default [] (pieces !! i))) <$> order) in *.
  assert (∀ i, i ∈ order ↔ (i < length pieces)%nat) as Hin.
  { intros i. rewrite Hp, elem_of_seq. lia. }
  assert (Byte.to_nat (byte_of (length pieces)) = length pieces) as Ht
    by (apply byte_of_to_nat; lia).
  replace (concat pieces)
    with (concat (placed (replicate (Byte.to_nat (byte_of (length pieces))) []) arrivals))
    by (rewrite Ht; unfold arrivals; rewrite placed_in_any_order; done || lia).
  apply reassemble_chunks; try done.
  - unfold arrivals. by rewrite length_fmap, Hp, length_seq.
  - lia.
  - unfold arrivals. apply Forall_fmap, Forall_forall. intros i Hi. cbn.
    apply Hin in Hi. rewrite Ht, byte_of_to_nat; lia.
  - apply concat_nonempty in Hne as (p & Hpin & Hpne).
    apply concat_nonempty. exists p. split; [|done].
    apply list_elem_of_lookup in Hpin as [j Hj].
    apply list_elem_of_fmap. exists (byte_of j, p). split; [done|].
    unfold arrivals. apply list_elem_of_fmap. exists j. rewrite Hj. split; [done|].
    apply Hin. by eapply lookup_lt_Some.
Qed.

(** C10, as amended.  For a declared count [t] between 1 and 128, [t] chunk
    datagrams of one message that all carry the same index below [t] end the
    loop without an error, all of them received, and the buffer is the payload
    of the last of them, the slots never written adding nothing; provided that
    no datagram is longer than [ChunkSize] or than a datagram received before
    it in the same call, and that not all payloads are empty. *)
Theorem same_index_keeps_the_last (id : bytes) (s : byte) (earlier : list bytes) (final : bytes)
    (rest : list event) (log : list nat) :
  length id = 8%nat →
  (length (earlier ++ [final]) ≤ 128)%nat →
  (Byte.to_nat s < length (earlier ++ [final]))%nat →
  no_longer_than ChunkSize (at_one_index id s (earlier ++ [final])) →
  concat (earlier ++ [final]) ≠ [] →
  ∃ cHead c',
    reassemble {| pending := (Datagram <$> at_one_index id s (earlier ++ [final])) ++ rest;
                  offered := log |}
      = Ok (cHead, final, c') ∧
    pending c' = rest.
Proof.
  intros Hid Hlen Hs Hn Hne. unfold at_one_index in *.
  set (t := length (earlier ++ [final])) in *.
  assert (Byte.to_nat (byte_of t) = t) as Ht by (apply byte_of_to_nat; lia).
  destruct (reassemble_chunks id (byte_of t) ((λ p, (s, p)) <$> earlier ++ [final]) rest log)
    as (cHead & c' & E & Ep); try done.
  - by rewrite length_fmap.
  - lia.
  - apply Forall_fmap, Forall_forall. intros p _. cbn. by rewrite Ht.
  - rewrite <- list_fmap_compose. by rewrite list_fmap_id.
  - exists cHead, c'. split; [|done]. rewrite E, Ht, placed_same_index.
    by rewrite concat_single_slot.
Qed.

End ChunkRuns.

(** ** The choice of the reader *)

Section Sniffing.
Context `{GelfConsts} `{Library}.

Lemma pick_reader_format (b0 b1 : byte) (buf : bytes) :
  is_Some (magicZlib !! 0%nat) →
  pick_reader [b0; b1] buf =
    Ok (match format_of b0 b1 with
        | Gzip => gzip_NewReader (bytes_NewReader buf)
        | Zlib => zlib_NewReader (bytes_NewReader buf)
        | Plain => Some (bytes_NewReader buf)
        end).
Proof.
  intros [z0 Hz]. unfold pick_reader, format_of, bytes_Equal.
  case_bool_decide; [done|]. rewrite Hz. cbn [lookup list_lookup or_panic mbind outcome_bind].
  destruct (decide (b0 = z0)) as [->|Hne].
  - rewrite !bool_decide_eq_true_2 by done. cbn [andb].
    rewrite Z.rem_mod_nonneg by (unfold int_of_byte; lia).
    rewrite (bool_decide_eq_true_2 (Some z0 = Some z0)) by done.
    by case_bool_decide.
  - rewrite (bool_decide_eq_false_2 (b0 = z0)) by done.
    rewrite (bool_decide_eq_false_2 (Some z0 = Some b0)) by congruence. done.
Qed.

Lemma readToMap_reassembled (c c' : Conn) (head buf : bytes) (f : format) :
  is_Some (magicZlib !! 0%nat) →
  reassemble c = Ok (head, buf, c') → told buf f →
  readToMap c =
    match (match f with
           | Gzip => gzip_NewReader (bytes_NewReader buf)
           | Zlib => zlib_NewReader (bytes_NewReader buf)
           | Plain => Some (bytes_NewReader buf)
           end) with
    | None => Err NewReaderError
    | Some cReader =>
        match json_Decode cReader with
        | None => Err UnmarshalError
        | Some msg => Ok (msg, c')
        end
    end.
Proof.
  intros Hz Er (b0 & b1 & tl & -> & <-).
  assert (head = [b0; b1]) as ->
    by (apply (reassemble_head _ _ _ _ Er); cbn [length]; lia).
  unfold readToMap. rewrite Er. cbn [mbind outcome_bind].
  by rewrite pick_reader_format.
Qed.

(** C5.  The two bytes [readToMap] looks at are the first two of the
    reassembled buffer; from them the reader is chosen by the rule: the gzip
    magic means gzip, the zlib method byte with a 16-bit value that is a
    multiple of 31 means zlib, anything else means uncompressed.  Hence,
    when the reassembled buffer of one call is a payload, that of a second
    its gzip stream and that of a third a zlib stream of it, each told by
    the rule to be what it is, the three calls have the same outcome; and
    when the payload decodes to an object whose string fields are strings,
    that outcome is a message, the same three times. *)
Theorem compression_is_told_from_two_bytes :
  is_Some (magicZlib !! 0%nat) →
  (∀ c c' cHead cBuf,
     reassemble c = Ok (cHead, cBuf, c') → (2 ≤ length cBuf)%nat →
     cHead = take 2 cBuf) ∧
  (∀ b0 b1 buf,
     pick_reader [b0; b1] buf =
       Ok (match format_of b0 b1 with
           | Gzip => gzip_NewReader (bytes_NewReader buf)
           | Zlib => zlib_NewReader (bytes_NewReader buf)
           | Plain => Some (bytes_NewReader buf)
           end)) ∧
  (∀ (cp cp' cg cg' cz cz' : Conn) (hp hg hz p g z : bytes),
     reassemble cp = Ok (hp, p, cp') → told p Plain →
     reassemble cg = Ok (hg, g, cg') → told g Gzip →
     gzip_NewReader (bytes_NewReader g) = Some (bytes_NewReader p) →
     reassemble cz = Ok (hz, z, cz') → told z Zlib →
     zlib_NewReader (bytes_NewReader z) = Some (bytes_NewReader p) →
     message_of (ReadMessage cg) = message_of (ReadMessage cp) ∧
     message_of (ReadMessage cz) = message_of (ReadMessage cp) ∧
     ∀ mapped, json_Decode (bytes_NewReader p) = Some mapped → well_typed mapped →
       ∃ msg, message_of (ReadMessage cp) = Ok msg ∧
              message_of (ReadMessage cg) = Ok msg ∧
              message_of (ReadMessage cz) = Ok msg).
Proof.
  intros Hz. split; [|split].
  - intros c c' cHead cBuf. apply reassemble_head.
  - intros b0 b1 buf. by apply pick_reader_format.
  - intros cp cp' cg cg' cz cz' hp hg hz p g z Ep Tp Eg Tg Ug Ez Tz Uz.
    pose proof (readToMap_reassembled _ _ _ _ _ Hz Ep Tp) as Rp.
    pose proof (readToMap_reassembled _ _ _ _ _ Hz Eg Tg) as Rg.
    pose proof (readToMap_reassembled _ _ _ _ _ Hz Ez Tz) as Rz.
    cbv beta iota in Rp, Rg, Rz. rewrite Ug in Rg. rewrite Uz in Rz.
    cbv beta iota in Rg, Rz.
    destruct (json_Decode (bytes_NewReader p)) as [mapped|] eqn:Ed.
    + rewrite (ReadMessage_after _ _ _ Rp), (ReadMessage_after _ _ _ Rg),
        (ReadMessage_after _ _ _ Rz).
      assert (∀ c', message_of (msg ← toMessage mapped; Ok (msg, c')) = toMessage mapped)
        as Hm by (intros c'; by destruct (toMessage mapped)).
      rewrite !Hm. split; [done|]. split; [done|].
      intros ? [= <-] Ht. destruct (toMessage_total mapped Ht) as [msg Em].
      exists msg. by rewrite Em.
    + unfold ReadMessage. rewrite Rp, Rg, Rz. split; [done|]. split; [done|].
      intros ? [=].
Qed.

End Sniffing.

(** ** More on the field mapping *)

Section MapperMore.
Context `{Library}.





(** a step of [ReadMessage] hands the message on or panics *)
Lemma when_set_cases mapped key body msg :
  (∀ val m, (∃ m', body val m = Ok m') ∨ body val m = Panic) →
  (∃ msg', when_set mapped key body msg = Ok msg') ∨ when_set mapped key body msg = Panic.
Proof.
  intros Hb. unfold when_set. destruct (mapped !! key) as [val|]; [|eauto].
  destruct (nonnil val); eauto.
Qed.

Lemma take_string_cases set val m :
  (∃ m', take_string set val m = Ok m') ∨ take_string set val m = Panic.
Proof. destruct val; cbn; eauto. Qed.

Lemma take_nonempty_cases set val m :
  (∃ m', take_nonempty set val m = Ok m') ∨ take_nonempty set val m = Panic.
Proof. destruct val; cbn; eauto. Qed.

Lemma take_int32_cases set val m :
  (∃ m', take_int32 set val m = Ok m') ∨ take_int32 set val m = Panic.
Proof. destruct val; cbn; eauto. Qed.

Lemma take_timestamp_cases val m :
  (∃ m', take_timestamp val m = Ok m') ∨ take_timestamp val m = Panic.
Proof. destruct val; cbn; eauto. destruct (strconv_ParseFloat s); eauto. Qed.

Lemma toMessage_cases mapped :
  (∃ msg, toMessage mapped = Ok msg) ∨ toMessage mapped = Panic.
Proof.
  unfold toMessage.
  destruct (when_set_cases mapped "version" (take_string set_Version) new_Message
              (take_string_cases _)) as [[m1 ->] | ->]; cbn [mbind outcome_bind]; [|by right].
  destruct (when_set_cases mapped "host" (take_string set_Host) m1
              (take_string_cases _)) as [[m2 ->] | ->]; cbn [mbind outcome_bind]; [|by right].
  destruct (when_set_cases mapped "short_message" (take_string set_Short) m2
              (take_string_cases _)) as [[m3 ->] | ->]; cbn [mbind outcome_bind]; [|by right].
  destruct (when_set_cases mapped "full_message" (take_nonempty set_Full) m3
              (take_nonempty_cases _)) as [[m4 ->] | ->]; cbn [mbind outcome_bind]; [|by right].
  destruct (when_set_cases mapped "timestamp" take_timestamp m4
              take_timestamp_cases) as [[m5 ->] | ->]; cbn [mbind outcome_bind]; [|by right].
  destruct (when_set_cases mapped "level" (take_int32 set_Level) m5
              (take_int32_cases _)) as [[m6 ->] | ->]; cbn [mbind outcome_bind]; [|by right].
  destruct (when_set_cases mapped "facility" (take_nonempty set_Facility) m6
              (take_nonempty_cases _)) as [[m7 ->] | ->]; cbn [mbind outcome_bind]; [|by right].
  destruct (when_set_cases mapped "file" (take_nonempty set_File) m7
              (take_nonempty_cases _)) as [[m8 ->] | ->]; cbn [mbind outcome_bind]; [|by right].
  destruct (when_set_cases mapped "line" (take_int32 set_Line) m8
              (take_int32_cases _)) as [[m9 ->] | ->]; cbn [mbind outcome_bind]; [|by right].
  left. eauto.
Qed.

(** [kept p E]: from a step [E] that does not assign the field [p], the
    equation between [p] after and before it *)
Ltac kept p E :=
  let K := fresh "K" in
  pose proof E as K;
  eapply (when_set_keeps p) in K;
  [ | lazymatch goal with
      | |- keeps _ (take_string _) => apply take_string_keeps
      | |- keeps _ (take_nonempty _) => apply take_nonempty_keeps
      | |- keeps _ (take_int32 _) => apply take_int32_keeps
      | |- keeps _ take_timestamp => apply take_timestamp_keeps
      end; intros; reflexivity ].

Lemma when_set_string_at mapped key set m m' :
  when_set mapped key (take_string set) m = Ok m' →
  m' = match mapped !! key with Some (JString v) => set v m | _ => m end.
Proof.
  unfold when_set. destruct (mapped !! key) as [[]|]; cbn; intros [= <-]; done.
Qed.

Lemma when_set_nonempty_at mapped key set m m' :
  when_set mapped key (take_nonempty set) m = Ok m' →
  m' = match mapped !! key with
       | Some (JString v) => if bool_decide (0 < String.length v)%nat then set v m else m
       | _ => m
       end.
Proof.
  unfold when_set. destruct (mapped !! key) as [[]|]; cbn; intros [= <-]; done.
Qed.

Lemma int32_wrap_range (z : Z) : - 2 ^ 31 ≤ int32_wrap z < 2 ^ 31.
Proof.
  unfold int32_wrap. pose proof (Z.mod_pos_bound (z + 2 ^ 31) (2 ^ 32)). lia.
Qed.

Lemma int32_of_float64_range (f : float64) : - 2 ^ 31 ≤ int32_of_float64 f < 2 ^ 31.
Proof.
  unfold int32_of_float64. destruct (integer_part f) as [z|].
  - case_bool_decide; [done | apply int32_wrap_range].
  - apply int32_wrap_range.
Qed.

Lemma int32_of_float64_fits (f : float64) (z : Z) :
  integer_part f = Some z → - 2 ^ 31 ≤ z < 2 ^ 31 → int32_of_float64 f = z.
Proof.
  intros E Hz. unfold int32_of_float64. rewrite E. by rewrite bool_decide_eq_true_2.
Qed.

Lemma when_set_int32_at mapped key set m m' :
  when_set mapped key (take_int32 set) m = Ok m' →
  m' = match mapped !! key with Some (JNumber f) => set (int32_of_float64 f) m | _ => m end.
Proof.
  unfold when_set. destruct (mapped !! key) as [[]|]; cbn; intros [= <-]; done.
Qed.

Lemma toMessage_strings mapped msg :
  toMessage mapped = Ok msg →
  Version msg = string_at mapped "version" ∧
  Host msg = string_at mapped "host" ∧
  Short msg = string_at mapped "short_message" ∧
  File msg = string_at mapped "file".
Proof.
  intros E. apply toMessage_steps in E
    as (m1 & m2 & m3 & m4 & m5 & m6 & m7 & m8 & m9 &
        E1 & E2 & E3 & E4 & E5 & E6 & E7 & E8 & E9 & ->).
  unfold string_at. repeat split.
  - kept Version E2. kept Version E3. kept Version E4. kept Version E5. kept Version E6.
    kept Version E7. kept Version E8. kept Version E9.
    transitivity (Version m1); [cbn; case_bool_decide; cbn; congruence|].
    apply when_set_string_at in E1. rewrite E1.
    by destruct (mapped !! "version") as [[]|].
  - kept Host E1. kept Host E3. kept Host E4. kept Host E5. kept Host E6.
    kept Host E7. kept Host E8. kept Host E9.
    transitivity (Host m2); [cbn; case_bool_decide; cbn; congruence|].
    apply when_set_string_at in E2. rewrite E2.
    destruct (mapped !! "host") as [[]|]; cbn in *; congruence.
  - kept Short E1. kept Short E2. kept Short E4. kept Short E5. kept Short E6.
    kept Short E7. kept Short E8. kept Short E9.
    transitivity (Short m3); [cbn; case_bool_decide; cbn; congruence|].
    apply when_set_string_at in E3. rewrite E3.
    destruct (mapped !! "short_message") as [[]|]; cbn in *; congruence.
  - kept File E1. kept File E2. kept File E3. kept File E4. kept File E5. kept File E6.
    kept File E7. kept File E9.
    transitivity (File m8); [cbn; case_bool_decide; cbn; congruence|].
    apply when_set_nonempty_at in E8. rewrite E8.
    destruct (mapped !! "file") as [[| | |v| |]|]; cbn in *; try congruence.
    case_bool_decide as Hl; cbn; [done|]. destruct v; [cbn; congruence | cbn in Hl; lia].
Qed.

Lemma toMessage_ints mapped msg :
  toMessage mapped = Ok msg →
  Level msg = match mapped !! "level" with
              | Some (JNumber f) => int32_of_float64 f
              | _ => 0
              end ∧
  Line msg = match mapped !! "line" with
             | Some (JNumber f) => int32_of_float64 f
             | _ => 0
             end.
Proof.
  intros E. apply toMessage_steps in E
    as (m1 & m2 & m3 & m4 & m5 & m6 & m7 & m8 & m9 &
        E1 & E2 & E3 & E4 & E5 & E6 & E7 & E8 & E9 & ->).
  split.
  - kept Level E1. kept Level E2. kept Level E3. kept Level E4. kept Level E5.
    kept Level E7. kept Level E8. kept Level E9.
    transitivity (Level m6); [cbn; case_bool_decide; cbn; congruence|].
    apply when_set_int32_at in E6. rewrite E6.
    destruct (mapped !! "level") as [[]|]; cbn in *; congruence.
  - kept Line E1. kept Line E2. kept Line E3. kept Line E4. kept Line E5.
    kept Line E6. kept Line E7. kept Line E8.
    transitivity (Line m9); [cbn; by case_bool_decide|].
    apply when_set_int32_at in E9. rewrite E9.
    destruct (mapped !! "line") as [[]|]; cbn in *; congruence.
Qed.

End MapperMore.

Section MessageMore.
Context `{GelfConsts} `{Library}.






(** X5.  In the message that comes back, [Level] and [Line] are the numbers under
    [level] and [line] converted to int32: they lie in the range of an int32,
    and they are the integer part of the number, the fraction dropped,
    whenever an int32 holds it.  A value of any other kind, a numeral in a
    string included, leaves them at zero. *)
Theorem numbers_become_level_and_line (c c' c'' : Conn) (mapped : gmap string JValue)
    (msg : Message) :
  readToMap c = Ok (mapped, c') →
  ReadMessage c = Ok (msg, c'') →
  (Level msg = match mapped !! "level" with
               | Some (JNumber f) => int32_of_float64 f
               | _ => 0
               end ∧
   Line msg = match mapped !! "line" with
              | Some (JNumber f) => int32_of_float64 f
              | _ => 0
              end) ∧
  (- 2 ^ 31 ≤ Level msg < 2 ^ 31 ∧ - 2 ^ 31 ≤ Line msg < 2 ^ 31) ∧
  (∀ f z, integer_part f = Some z → - 2 ^ 31 ≤ z < 2 ^ 31 →
     (mapped !! "level" = Some (JNumber f) → Level msg = z) ∧
     (mapped !! "line" = Some (JNumber f) → Line msg = z)).
Proof.
  intros Hr E. apply (ReadMessage_Ok _ _ _ _ _ Hr) in E as [E _].
  apply toMessage_ints in E as [El Eli]. split; [done|]. split.
  - rewrite El, Eli. split.
    + destruct (mapped !! "level") as [[| |f| | |]|]; try lia. apply int32_of_float64_range.
    + destruct (mapped !! "line") as [[| |f| | |]|]; try lia. apply int32_of_float64_range.
  - intros f z Hf Hz. split; intros Em.
    + rewrite El, Em. by apply int32_of_float64_fits.
    + rewrite Eli, Em. by apply int32_of_float64_fits.
Qed.

(** X6.  Whatever order the range over the decoded object takes, the loop of lines
    151-155 builds the same map, and what it builds under [j] is the non-null
    value of the key ["_" ++ j]. *)
Theorem extra_in_any_order (mapped : gmap string JValue) (kvs : list (string * JValue)) :
  kvs ≡ₚ map_to_list mapped →
  range_extra kvs ∅ = range_extra (map_to_list mapped) ∅ ∧
  ∀ j v, range_extra kvs ∅ !! j = Some v ↔
         mapped !! String "_"%char j = Some v ∧ v ≠ JNull.
Proof.
  intros Hp. assert (range_extra kvs ∅ = range_extra (map_to_list mapped) ∅) as E
    by by apply range_extra_any_order.
  split; [done|]. intros j v. rewrite E. apply extra_lookup.
Qed.

End MessageMore.

(** ** More on the loop: what it takes, what it is offered, how it fails *)

Section LoopMore.
Context `{GelfConsts}.

Lemma dispatch_same_buffer (v : vars) (f : flow) :
  dispatch v = Ok f → arr (vars_of f) = arr v ∧ cBuf (vars_of f) = cBuf v.
Proof.
  unfold dispatch.
  destruct (bytes_Equal (view (arr v) (cHead v)) magicChunked).
  - destruct (reslice_cases (arr v) (cBuf v) 2 (2 + 8)) as [-> | ->];
      cbn [mbind outcome_bind]; [|done].
    destruct (index_cases (arr v) (cBuf v) (2 + 8)) as [[seq' ->] | ->];
      cbn [mbind outcome_bind]; [|done].
    destruct (index_cases (arr v) (cBuf v) (2 + 8 + 1)) as [[total' ->] | ->];
      cbn [mbind outcome_bind]; [|done].
    destruct (differs _ _ _); [done|].
    destruct (reslice_cases (arr v) (cBuf v) chunkedHeaderLen (len (cBuf v))) as [-> | ->];
      do 2 (match goal with
            | |- context [if bool_decide ?P then Ok () else Panic] =>
                destruct (bool_decide P)
            end);
      cbn [mbind outcome_bind]; try done.
    by intros [= <-].
  - case_bool_decide; [done|]. by intros [= <-].
Qed.

Lemma iteration_takes (v : vars) (c c' : Conn) (f : flow) :
  fronted v → iteration v c = Ok (f, c') →
  ∃ d, pending c = Datagram d :: pending c' ∧
       offered c' = offered c ++ [len (cBuf v)] ∧
       cBuf (vars_of f) = Slice 0 (len (cBuf v) `min` length d) ∧
       length (arr (vars_of f)) = length (arr v).
Proof.
  intros [Hlo Hhi]. unfold iteration, conn_Read.
  destruct (pending c) as [|[d|e] rest] eqn:Ep; cbn [mbind outcome_bind]; try done.
  set (d' := take (len (cBuf v)) d).
  set (a := store (arr v) (cBuf v) d').
  destruct (reslice_cases a (cBuf v) 0 2) as [-> | ->]; cbn [mbind outcome_bind]; [|done].
  destruct (reslice_cases a (cBuf v) 0 (length d')) as [-> | ->];
    cbn [mbind outcome_bind]; [|done].
  match goal with |- context [dispatch ?w] => set (v1 := w) end.
  destruct (dispatch v1) as [f1| | |] eqn:Ed; cbn [mbind outcome_bind]; try done.
  intros [= <- <-]. apply dispatch_same_buffer in Ed as [Ea Eb].
  exists d. cbn [pending offered]. split; [done|]. split; [done|].
  rewrite Ea, Eb. cbn [v1 arr cBuf]. rewrite Hlo. cbn [Nat.add]. split.
  - unfold d'. by rewrite length_take.
  - unfold a, store. rewrite Hlo. cbn [take Nat.add app].
    assert (length d' ≤ len (cBuf v))%nat by (unfold d'; rewrite length_take; lia).
    rewrite !length_app, length_drop, length_take. unfold len in *. lia.
Qed.

Lemma iteration_fronted (v : vars) (c c' : Conn) (f : flow) :
  fronted v → iteration v c = Ok (f, c') → fronted (vars_of f).
Proof.
  intros Hf E. destruct (iteration_takes v c c' f Hf E) as (d & _ & _ & Eb & Ea).
  destruct Hf as [Hlo Hhi]. split; rewrite Eb; cbn [lo hi]; [done|].
  rewrite Ea. unfold len. lia.
Qed.

Lemma loop_takes (fuel : nat) :
  ∀ (got : nat) (v v' : vars) (c c' : Conn),
    fronted v → loop fuel got v c = Ok (v', c') →
    ∃ taken, pending c = (Datagram <$> taken) ++ pending c' ∧
             offered c' = offered c ++ offers (len (cBuf v)) taken ∧
             (length taken ≤ fuel)%nat.
Proof.
  induction fuel as [|fuel IH]; intros got v v' c c' Hf; cbn [loop].
  - intros [= <- <-]. exists []. by rewrite app_nil_r.
  - destruct (more got v).
    2: { intros [= <- <-]. exists []. rewrite app_nil_r. cbn. split; [done|]. split; [done|lia]. }
    destruct (iteration v c) as [[f c1]| | |] eqn:Ei; cbn [mbind outcome_bind]; try done.
    destruct (iteration_takes v c c1 f Hf Ei) as (d & Ep & Eo & Eb & Ea).
    pose proof (iteration_fronted v c c1 f Hf Ei) as Hf1.
    destruct f as [v1|v1]; cbn [vars_of] in *.
    + intros El. destruct (IH _ _ _ _ _ Hf1 El) as (taken & Ep' & Eo' & Hl).
      exists (d :: taken). cbn [fmap list_fmap app offers length].
      rewrite Ep, Ep', Eo', Eo, Eb. unfold len at 2. cbn [lo hi].
      rewrite Nat.sub_0_r, <- app_assoc. split; [done|]. split; [done|lia].
    + intros [= <- <-]. exists [d]. cbn [fmap list_fmap app offers length].
      rewrite Ep, Eo. split; [done|]. split; [done|lia].
Qed.


Lemma dispatch_errors (v : vars) (e : goerror) :
  aliased v → dispatch v = Err e → e = OutOfBandNotChunked.
Proof.
  intros [Hlo Ho]. unfold dispatch.
  destruct (bytes_Equal (view (arr v) (cHead v)) magicChunked).
  - destruct (reslice_cases (arr v) (cBuf v) 2 (2 + 8)) as [-> | ->];
      cbn [mbind outcome_bind]; [|done].
    destruct (index_cases (arr v) (cBuf v) (2 + 8)) as [[seq' ->] | ->];
      cbn [mbind outcome_bind]; [|done].
    destruct (index_cases (arr v) (cBuf v) (2 + 8 + 1)) as [[total' ->] | ->];
      cbn [mbind outcome_bind]; [|done].
    rewrite Hlo. cbn [Nat.add].
    assert (differs (arr v) (Slice 2 10) (ocid v) = false) as ->.
    { destruct Ho as [-> | ->]; [done|]. cbn [differs]. by rewrite view_same. }
    destruct (reslice_cases (arr v) (cBuf v) chunkedHeaderLen (len (cBuf v))) as [-> | ->];
      do 2 (match goal with
            | |- context [if bool_decide ?P then Ok () else Panic] =>
                destruct (bool_decide P)
            end);
      cbn [mbind outcome_bind]; done.
  - case_bool_decide; [by intros [= <-] | done].
Qed.

Lemma iteration_errors (v : vars) (c : Conn) (e : goerror) :
  aliased v → iteration v c = Err e →
  (∃ s rest, e = ReadError s ∧ pending c = Failure s :: rest) ∨ e = OutOfBandNotChunked.
Proof.
  intros [Hlo Ho]. unfold iteration, conn_Read.
  destruct (pending c) as [|[d|s] rest] eqn:Ep; cbn [mbind outcome_bind]; try done.
  2: { intros [= <-]. left. eauto. }
  set (a := store (arr v) (cBuf v) (take (len (cBuf v)) d)).
  destruct (reslice_cases a (cBuf v) 0 2) as [-> | ->]; cbn [mbind outcome_bind]; [|done].
  destruct (reslice_cases a (cBuf v) 0 (length (take (len (cBuf v)) d))) as [-> | ->];
    cbn [mbind outcome_bind]; [|done].
  match goal with |- context [dispatch ?w] => set (v1 := w) end.
  assert (aliased v1) as Ha by (split; [cbn; lia | done]).
  destruct (dispatch v1) as [f1| | |] eqn:Ed; cbn [mbind outcome_bind]; try done.
  intros [= <-]. right. by eapply dispatch_errors.
Qed.

Lemma loop_errors (fuel : nat) :
  ∀ (got : nat) (v : vars) (c : Conn) (e : goerror),
    aliased v → fronted v → loop fuel got v c = Err e →
    (∃ s taken rest, e = ReadError s ∧
                     pending c = (Datagram <$> taken) ++ Failure s :: rest ∧
                     (length taken < fuel)%nat) ∨
    e = OutOfBandNotChunked.
Proof.
  induction fuel as [|fuel IH]; intros got v c e Ha Hf; cbn [loop]; [done|].
  destruct (more got v); [|done].
  destruct (iteration v c) as [[f c1]| | |] eqn:Ei; cbn [mbind outcome_bind]; try done.
  - destruct (iteration_takes v c c1 f Hf Ei) as (d & Ep & _).
    pose proof (iteration_fronted v c c1 f Hf Ei) as Hf1.
    destruct (iteration_aliased v c Ha) as [_ Ha1].
    destruct f as [v1|v1]; [|done]. cbn [vars_of] in *.
    intros El. destruct (IH _ _ _ _ (Ha1 _ _ Ei) Hf1 El)
      as [(s & taken & rest & -> & Ep' & Hl) | ->]; [|by right].
    left. exists s, (d :: taken), rest. rewrite Ep, Ep'. split; [done|].
    split; [done | cbn; lia].
  - intros [= <-]. destruct (iteration_errors v c e0 Ha Ei) as [(s & rest & -> & Ep) | ->];
      [|by right].
    left. exists s, [], rest. split; [done|]. split; [done | cbn; lia].
Qed.

Lemma vars0_fronted : fronted vars0.
Proof. split; [done|]. cbn. by rewrite length_replicate. Qed.

Lemma vars0_aliased : aliased vars0.
Proof. split; [done | by left]. Qed.

Lemma len_cBuf_vars0 : len (cBuf vars0) = ChunkSize.
Proof. unfold len. cbn. lia. Qed.

Lemma reassemble_takes (c c' : Conn) (head buf : bytes) :
  reassemble c = Ok (head, buf, c') →
  ∃ d taken,
    pending c = (Datagram <$> d :: taken) ++ pending c' ∧
    offered c' = offered c ++ offers ChunkSize (d :: taken) ∧
    (length (d :: taken) ≤ 128)%nat.
Proof.
  unfold reassemble. rewrite (loop_S 127), more_first.
  destruct (iteration vars0 c) as [[f c1]| | |] eqn:Ei; cbn [mbind outcome_bind]; try done.
  destruct (iteration_takes vars0 c c1 f vars0_fronted Ei) as (d & Ep & Eo & Eb & _).
  pose proof (iteration_fronted vars0 c c1 f vars0_fronted Ei) as Hf1.
  rewrite len_cBuf_vars0 in *.
  destruct f as [v1|v1]; cbn [vars_of] in *.
  - destruct (loop 127 1 v1 c1) as [[v' c2]| | |] eqn:El; cbn [mbind outcome_bind]; try done.
    intros [= _ <-].
    destruct (loop_takes _ _ _ _ _ _ Hf1 El) as (taken & Ep' & Eo' & Hl).
    exists d, taken. cbn [fmap list_fmap app offers length].
    rewrite Ep, Ep', Eo', Eo, Eb. unfold len. cbn [lo hi].
    rewrite Nat.sub_0_r, <- app_assoc. split; [done|]. split; [done|lia].
  - intros [= _ <-]. exists d, []. cbn [fmap list_fmap app offers length].
    rewrite Ep, Eo. split; [done|]. split; [done|lia].
Qed.

Lemma reassemble_errors (c : Conn) (e : goerror) :
  reassemble c = Err e →
  (∃ s taken rest, e = ReadError s ∧
                   pending c = (Datagram <$> taken) ++ Failure s :: rest ∧
                   (length taken < 128)%nat) ∨
  e = OutOfBandNotChunked.
Proof.
  unfold reassemble.
  destruct (loop 128 0 vars0 c) as [[v c']| | |] eqn:El; cbn [mbind outcome_bind]; try done.
  intros [= <-]. by apply (loop_errors _ _ _ _ _ vars0_aliased vars0_fronted El).
Qed.

End LoopMore.

Section CallMore.
Context `{GelfConsts} `{Library}.

Lemma readToMap_Ok (c c' : Conn) (mapped : gmap string JValue) :
  readToMap c = Ok (mapped, c') → ∃ head buf, reassemble c = Ok (head, buf, c').
Proof.
  unfold readToMap.
  destruct (reassemble c) as [[[head buf] c1]| | |]; cbn [mbind outcome_bind]; try done.
  destruct (pick_reader head buf) as [[r|]| | |]; cbn [mbind outcome_bind]; try done.
  destruct (json_Decode r); [|done]. intros [= _ <-]. eauto.
Qed.

Lemma ReadMessage_reassembled (c c' : Conn) (msg : Message) :
  ReadMessage c = Ok (msg, c') → ∃ head buf, reassemble c = Ok (head, buf, c').
Proof.
  unfold ReadMessage.
  destruct (readToMap c) as [[mapped c1]| | |] eqn:Er; cbn [mbind outcome_bind]; try done.
  destruct (toMessage mapped); cbn [mbind outcome_bind]; try done.
  intros [= _ <-]. by eapply readToMap_Ok.
Qed.

Lemma ReadMessage_Err (c : Conn) (e : goerror) :
  ReadMessage c = Err e →
  reassemble c = Err e ∨ e = NewReaderError ∨ e = UnmarshalError.
Proof.
  unfold ReadMessage, readToMap.
  destruct (reassemble c) as [[[head buf] c1]| | |]; cbn [mbind outcome_bind]; try done.
  - destruct (pick_reader head buf) as [[r|]| | |] eqn:Ep; cbn [mbind outcome_bind]; try done.
    + destruct (json_Decode r); cbn [mbind outcome_bind].
      * destruct (toMessage_cases g) as [[msg ->] | ->]; done.
      * intros [= <-]. eauto.
    + intros [= <-]. eauto.
    + unfold pick_reader in Ep. destruct (bytes_Equal head magicGzip); [done|].
      destruct (head !! 0%nat), (magicZlib !! 0%nat); cbn in Ep; try done.
      case_bool_decide; [|done]. destruct (head !! 1%nat); cbn in Ep; [|done].
      by case_bool_decide.
  - intros [= <-]. by left.
Qed.

(** X8.  A call that returns a message has taken at least one and at most 128
    datagrams from the front of the socket, and nothing else. *)
Theorem a_message_takes_1_to_128_datagrams (c c' : Conn) (msg : Message) :
  ReadMessage c = Ok (msg, c') →
  ∃ taken, pending c = (Datagram <$> taken) ++ pending c' ∧
           (1 ≤ length taken ≤ 128)%nat.
Proof.
  intros E. apply ReadMessage_reassembled in E as (head & buf & E).
  apply reassemble_takes in E as (d & taken & Ep & _ & Hl).
  exists (d :: taken). split; [done|]. cbn in *. lia.
Qed.

(** X9.  In a call that returns a message, the first receive is offered
    [ChunkSize] bytes and every later one as many bytes as the receive before
    it stored: the buffer offered never grows back. *)
Theorem receives_are_offered_what_the_last_stored (c c' : Conn) (msg : Message) :
  ReadMessage c = Ok (msg, c') →
  ∃ taken, pending c = (Datagram <$> taken) ++ pending c' ∧
           offered c' = offered c ++ offers ChunkSize taken.
Proof.
  intros E. apply ReadMessage_reassembled in E as (head & buf & E).
  apply reassemble_takes in E as (d & taken & Ep & Eo & _).
  by exists (d :: taken).
Qed.

(** X7.  The errors of a call: the transport's own error, reached after fewer than
    128 datagrams, the error for a datagram without the chunk magic in the
    middle of a chunked message, or a failure of the reader or of the JSON
    decoder.  The error for another message id is never returned. *)
Theorem the_errors_of_a_call (c : Conn) (e : goerror) :
  ReadMessage c = Err e →
  (∃ s taken rest, e = ReadError s ∧
                   pending c = (Datagram <$> taken) ++ Failure s :: rest ∧
                   (length taken < 128)%nat) ∨
  e = OutOfBandNotChunked ∨ e = NewReaderError ∨ e = UnmarshalError.
Proof.
  intros E. apply ReadMessage_Err in E as [E | [-> | ->]]; [|by eauto..].
  apply reassemble_errors in E as [? | ->]; eauto.
Qed.

End CallMore.

(** ** More on runs of chunks *)

Section RunsMore.
Context `{GelfConsts}.
Hypothesis magic_len : length magicChunked = 2%nat.
Hypothesis header_len : chunkedHeaderLen = 12%nat.

(** the loop over a run of chunks that does not yet end it *)
Lemma loop_run (id : bytes) (tt : byte) (arrivals : list (byte * bytes)) :
  length id = 8%nat →
  ∀ (fuel got : nat) (v : vars) (c : Conn) (L : nat) (rest : list event),
    cBuf v = Slice 0 L → (2 ≤ L ≤ length (arr v))%nat →
    ocid v = Some (Slice 2 10) → total v = tt →
    length (chunks v) = Byte.to_nat tt →
    pending c = (Datagram <$> datagrams id tt arrivals) ++ rest →
    no_longer_than L (datagrams id tt arrivals) →
    Forall (λ a, (Byte.to_nat a.1 < Byte.to_nat tt)%nat) arrivals →
    (got + length arrivals ≤ Byte.to_nat tt)%nat →
    (got + length arrivals ≤ 128)%nat →
    ∃ v' c' L',
      loop (length arrivals + fuel) got v c = loop fuel (got + length arrivals) v' c' ∧
      chunks v' = placed (chunks v) arrivals ∧
      length_ v' = length_ v + Z.of_nat (length (concat arrivals.*2)) ∧
      pending c' = rest ∧
      cBuf v' = Slice 0 L' ∧ (2 ≤ L' ≤ length (arr v'))%nat ∧
      ocid v' = Some (Slice 2 10) ∧ total v' = tt.
Proof.
  intros Hid. induction arrivals as [|[s p] arrivals IH];
    intros fuel got v c L rest Hb HL Ho Ht Hch Hp Hn Hs Hsum H128.
  - exists v, c, L. cbn in *. rewrite Nat.add_0_r. repeat split; try done; lia.
  - cbn [length] in Hsum, H128. cbn [datagrams fmap list_fmap no_longer_than] in Hn.
    destruct Hn as [Hd Hn]. cbn [fst snd] in Hd, Hn.
    apply Forall_cons in Hs as [Hs1 Hs]. cbn [fst] in Hs1.
    cbn [length Nat.add]. rewrite loop_S.
    rewrite more_true by (rewrite ?Ht; lia).
    rewrite (iteration_chunk magic_len header_len v c L id s tt p
               ((Datagram <$> datagrams id tt arrivals) ++ rest))
      by (rewrite ?Ho, ?Hch; eauto || lia).
    cbn [mbind outcome_bind].
    pose proof (chunk_datagram_length magic_len header_len id s tt p Hid) as Hlen.
    destruct (IH fuel (S got) (after_chunk v id s tt p)
                {| pending := (Datagram <$> datagrams id tt arrivals) ++ rest;
                   offered := offered c ++ [L] |}
                (length (chunk_datagram id s tt p)) rest)
      as (v' & c' & L' & El & Ech & Elen & Ep & Eb & HL' & Eo & Et);
      try done; try lia.
    { cbn [after_chunk arr]. rewrite length_store_front; lia. }
    { cbn [after_chunk chunks]. by rewrite Ho, length_insert. }
    exists v', c', L'. rewrite El. replace (S got + length arrivals)%nat
      with (got + S (length arrivals))%nat by lia.
    repeat split; try done; try lia.
    + rewrite Ech. cbn [after_chunk chunks]. by rewrite Ho.
    + rewrite Elen. cbn [after_chunk length_ fmap list_fmap concat snd].
      rewrite length_app. lia.
Qed.


(** the loop of [reassemble] after a run of chunks from the start *)
Lemma loop_from_start (id : bytes) (tt : byte) (arrivals : list (byte * bytes))
    (rest : list event) (log : list nat) :
  length id = 8%nat → arrivals ≠ [] →
  (length arrivals ≤ Byte.to_nat tt `min` 128)%nat →
  Forall (λ a, (Byte.to_nat a.1 < Byte.to_nat tt)%nat) arrivals →
  no_longer_than ChunkSize (datagrams id tt arrivals) →
  ∃ v' c' L',
    loop 128 0 vars0 {| pending := (Datagram <$> datagrams id tt arrivals) ++ rest;
                        offered := log |}
      = loop (128 - length arrivals) (length arrivals) v' c' ∧
    chunks v' = placed (replicate (Byte.to_nat tt) []) arrivals ∧
    length_ v' = Z.of_nat (length (concat arrivals.*2)) ∧
    pending c' = rest ∧
    cBuf v' = Slice 0 L' ∧ (2 ≤ L' ≤ length (arr v'))%nat ∧
    total v' = tt.
Proof.
  intros Hid Hne Hlen Hs Hn.
  destruct arrivals as [|[s p] arrivals]; [done|]. clear Hne.
  cbn [length] in Hlen. cbn [datagrams fmap list_fmap no_longer_than] in Hn.
  destruct Hn as [Hd Hn]. cbn [fst snd] in Hd, Hn.
  apply Forall_cons in Hs as [Hs1 Hs]. cbn [fst] in Hs1.
  pose proof (chunk_datagram_length magic_len header_len id s tt p Hid) as Hl.
  rewrite (loop_S 127), more_first.
  rewrite (iteration_chunk magic_len header_len vars0 _ ChunkSize id s tt p
             ((Datagram <$> datagrams id tt arrivals) ++ rest));
    [ | done | done | cbn [vars0 arr]; by rewrite length_replicate | done | by left
      | done | cbn [vars0 ocid]; by rewrite length_replicate ].
  cbn [mbind outcome_bind offered].
  destruct (loop_run id tt arrivals Hid (127 - length arrivals) 1
              (after_chunk vars0 id s tt p)
              {| pending := (Datagram <$> datagrams id tt arrivals) ++ rest;
                 offered := log ++ [ChunkSize] |}
              (length (chunk_datagram id s tt p)) rest)
    as (v' & c' & L' & El & Ech & Elen & Ep & Eb & HL' & _ & Et); try done; try lia.
  { cbn [after_chunk arr vars0]. rewrite length_store_front; rewrite length_replicate; lia. }
  { cbn [after_chunk chunks vars0 ocid]. by rewrite length_insert, length_replicate. }
  exists v', c', L'.
  replace 127%nat with (length arrivals + (127 - length arrivals))%nat at 1 by lia.
  rewrite El. cbn [length]. replace (128 - S (length arrivals))%nat
    with (127 - length arrivals)%nat by lia.
  repeat split; try done; try lia.
  - rewrite Elen. cbn [after_chunk length_ vars0 fmap list_fmap concat snd].
    rewrite length_app. lia.
Qed.

(** X12.  A run of chunk datagrams of one message, as many as the declared count
    or 128 if that is less, each with an index below the count: the loop
    takes them all and stops, and the buffer is what the slots hold, in the
    order of the indices, each slot with what was stored in it last. *)
Theorem chunks_are_taken_up_to_the_count_or_128 (id : bytes) (tt : byte)
    (arrivals : list (byte * bytes)) (rest : list event) (log : list nat) :
  length id = 8%nat →
  (1 ≤ Byte.to_nat tt)%nat →
  length arrivals = (Byte.to_nat tt `min` 128)%nat →
  Forall (λ a, (Byte.to_nat a.1 < Byte.to_nat tt)%nat) arrivals →
  no_longer_than ChunkSize (datagrams id tt arrivals) →
  concat arrivals.*2 ≠ [] →
  ∃ cHead c',
    reassemble {| pending := (Datagram <$> datagrams id tt arrivals) ++ rest;
                  offered := log |}
      = Ok (cHead, concat (placed (replicate (Byte.to_nat tt) []) arrivals), c') ∧
    pending c' = rest.
Proof.
  intros Hid Ht Hlen Hs Hn Hne.
  destruct (loop_from_start id tt arrivals rest log)
    as (v' & c' & L' & El & Ech & Elen & Ep & _ & _ & Et); try done; try lia.
  { intros ->. cbn in Hlen. lia. }
  unfold reassemble. rewrite El.
  assert (loop (128 - length arrivals) (length arrivals) v' c' = Ok (v', c')) as ->.
  { destruct (128 - length arrivals)%nat as [|fuel] eqn:Ef; [done|].
    rewrite loop_S, more_false; [done | rewrite Et; lia | rewrite Et; lia]. }
  cbn [mbind outcome_bind]. unfold gather. rewrite bool_decide_eq_true_2.
  - rewrite Ech. eexists _, c'. by split.
  - rewrite Elen. destruct (concat arrivals.*2); [done | cbn; lia].
Qed.

(** X11.  In the middle of a chunked message, after at least one chunk and before
    the declared count or 128 is reached, a datagram of two bytes or more
    that does not start with the chunk magic ends the call with the
    not-chunked error. *)
Theorem a_plain_datagram_among_chunks_is_refused (id : bytes) (tt : byte)
    (arrivals : list (byte * bytes)) (d : bytes) (rest : list event) (log : list nat) :
  length id = 8%nat →
  arrivals ≠ [] →
  (length arrivals < Byte.to_nat tt `min` 128)%nat →
  Forall (λ a, (Byte.to_nat a.1 < Byte.to_nat tt)%nat) arrivals →
  no_longer_than ChunkSize (datagrams id tt arrivals) →
  (2 ≤ length d)%nat → take 2 d ≠ magicChunked →
  reassemble {| pending := (Datagram <$> datagrams id tt arrivals) ++ Datagram d :: rest;
                offered := log |}
    = Err OutOfBandNotChunked.
Proof.
  intros Hid Hne Hlen Hs Hn Hd Hm.
  destruct (loop_from_start id tt arrivals (Datagram d :: rest) log)
    as (v' & c' & L' & El & _ & _ & Ep & Eb & HL' & Et); try done; try lia.
  unfold reassemble. rewrite El.
  destruct (128 - length arrivals)%nat as [|fuel] eqn:Ef; [lia|].
  rewrite loop_S, more_true by (rewrite ?Et; lia).
  rewrite (iteration_not_chunked v' c' L' d rest) by done.
  rewrite Et, bool_decide_eq_true_2; [done|]. unfold int_of_byte. lia.
Qed.

End RunsMore.

(** ** Edges of the reassembly *)

Section EdgesMore.
Context `{GelfConsts}.

Lemma reslice_Ok_bounds (a : bytes) (s r : slice) (i j : nat) :
  reslice a s i j = Ok r → (i ≤ j ∧ lo s + j ≤ length a)%nat.
Proof. unfold reslice. by case_bool_decide. Qed.

Lemma index_beyond (a : bytes) (s : slice) (i : nat) :
  (len s ≤ i)%nat → index a s i = Panic.
Proof. intros. unfold index. by rewrite bool_decide_eq_false_2 by lia. Qed.

(** X10.  A datagram of two bytes or more that does not start with the chunk magic
    is the whole message: one receive, the buffer is the datagram cut to
    [ChunkSize] bytes, and what follows on the socket is left there. *)
Theorem an_unchunked_datagram_is_the_message (d : bytes) (rest : list event) (log : list nat) :
  (2 ≤ ChunkSize)%nat → (2 ≤ length d)%nat → take 2 d ≠ magicChunked →
  reassemble {| pending := Datagram d :: rest; offered := log |} =
    Ok (take 2 d, take ChunkSize d, {| pending := rest; offered := log ++ [ChunkSize] |}).
Proof.
  intros Hc Hd Hm. unfold reassemble. rewrite (loop_S 127), more_first.
  rewrite (iteration_not_chunked vars0 _ ChunkSize d rest);
    [ | done | cbn [vars0 arr]; rewrite length_replicate; lia | done | lia | done ].
  cbn [vars0 total]. rewrite bool_decide_eq_false_2 by done.
  cbn [mbind outcome_bind offered]. unfold gather. cbn [after_plain length_].
  rewrite bool_decide_eq_false_2 by done.
  assert (2 ≤ length (take ChunkSize d))%nat by (rewrite length_take; lia).
  unfold view, len, after_plain. cbn [arr cHead cBuf lo hi Nat.sub].
  rewrite ?Nat.sub_0_r, !drop_0.
  rewrite (take_app_le _ _ 2) by done. rewrite take_app_length.
  rewrite take_take. by replace (2 `min` ChunkSize)%nat with 2%nat by lia.
Qed.

(** X13.  A first datagram that starts with the chunk magic but has fewer than the
    twelve bytes of a chunk header makes the call panic on an index out of
    range. *)
Theorem a_chunk_without_its_header_panics (d : bytes) (rest : list event) (log : list nat) :
  (2 ≤ length d < 12)%nat → take 2 d = magicChunked →
  reassemble {| pending := Datagram d :: rest; offered := log |} = Panic.
Proof.
  intros Hd Hm. unfold reassemble. rewrite (loop_S 127), more_first.
  unfold iteration, conn_Read. cbn [pending mbind outcome_bind].
  rewrite len_cBuf_vars0. set (d' := take ChunkSize d).
  change (cBuf vars0) with (Slice 0 ChunkSize). change (arr vars0) with (replicate ChunkSize x00).
  rewrite store_front.
  set (a := d' ++ drop (length d') (replicate ChunkSize x00)).
  assert (length d' ≤ ChunkSize)%nat as Hd'c by (unfold d'; rewrite length_take; lia).
  assert (length a = ChunkSize) as Hla
    by (unfold a; rewrite length_store_front; rewrite length_replicate; done).
  destruct (reslice_cases a (Slice 0 ChunkSize) 0 2) as [Eh | ->];
    cbn [mbind outcome_bind]; [|done].
  pose proof (reslice_Ok_bounds _ _ _ _ _ Eh) as [_ Hc]. cbn [lo] in Hc. rewrite Hla in Hc.
  rewrite Eh. cbn [mbind outcome_bind].
  destruct (reslice_cases a (Slice 0 ChunkSize) 0 (length d')) as [-> | ->];
    cbn [mbind outcome_bind]; [|done].
  assert (length d' < 12 ∧ 2 ≤ length d')%nat as [Hl12 Hl2]
    by (unfold d'; rewrite length_take; lia).
  unfold dispatch. cbn [arr cHead cBuf vars0 lo hi Nat.add].
  assert (view a (Slice 0 2) = magicChunked) as ->.
  { unfold view, len. cbn [lo hi Nat.sub]. rewrite drop_0. unfold a.
    rewrite take_app_le by lia. unfold d'. rewrite take_take, <- Hm. f_equal. lia. }
  unfold bytes_Equal. rewrite bool_decide_eq_true_2 by done.
  destruct (reslice_cases a (Slice 0 (length d')) 2 10) as [-> | ->];
    cbn [mbind outcome_bind]; [|done].
  destruct (index_cases a (Slice 0 (length d')) 10) as [[seq' ->] | ->];
    cbn [mbind outcome_bind]; [|done].
  rewrite index_beyond; [done|]. unfold len. cbn [lo hi]. lia.
Qed.


Lemma take_2_zero_padded (d : bytes) :
  (2 ≤ ChunkSize)%nat → (length d < 2)%nat →
  take 2 (d ++ drop (length d) (replicate ChunkSize x00)) = take 2 (d ++ [x00; x00]).
Proof.
  intros Hc Hd. destruct ChunkSize as [|[|k]]; [lia..|].
  destruct d as [|b [|b' d]]; [done | done | cbn in Hd; lia].
Qed.

(** X17.  A first datagram of fewer than two bytes is no error: the two header
    bytes are read from the fresh array, which holds zeros beyond the
    datagram, and unless they make up the chunk magic the datagram is the
    buffer. *)
Theorem a_datagram_of_less_than_two_bytes (d : bytes) (rest : list event) (log : list nat) :
  (2 ≤ ChunkSize)%nat → (length d < 2)%nat →
  take 2 (d ++ [x00; x00]) ≠ magicChunked →
  reassemble {| pending := Datagram d :: rest; offered := log |} =
    Ok (take 2 (d ++ [x00; x00]), d, {| pending := rest; offered := log ++ [ChunkSize] |}).
Proof.
  intros Hc Hd Hm. unfold reassemble. rewrite (loop_S 127), more_first.
  unfold iteration, conn_Read. cbn [pending mbind outcome_bind].
  rewrite len_cBuf_vars0, (take_ge d) by lia.
  change (cBuf vars0) with (Slice 0 ChunkSize). change (arr vars0) with (replicate ChunkSize x00).
  rewrite store_front.
  set (a := d ++ drop (length d) (replicate ChunkSize x00)).
  assert (length a = ChunkSize) as Hla
    by (unfold a; rewrite length_store_front; rewrite length_replicate; lia).
  rewrite !reslice_ok by (cbn [lo]; rewrite ?Hla; lia).
  cbn [mbind outcome_bind lo Nat.add]. unfold dispatch. cbn [arr cHead total vars0].
  assert (view a (Slice 0 2) = take 2 (d ++ [x00; x00])) as Hv.
  { unfold view, len. cbn [lo hi Nat.sub]. rewrite drop_0. by apply take_2_zero_padded. }
  rewrite Hv. unfold bytes_Equal. rewrite (bool_decide_eq_false_2 _ Hm).
  rewrite bool_decide_eq_false_2 by done.
  cbn [mbind outcome_bind offered]. unfold gather. cbn [length_ vars0].
  rewrite bool_decide_eq_false_2 by done. cbn [arr cHead cBuf]. rewrite Hv.
  unfold view, len. cbn [lo hi]. rewrite Nat.sub_0_r, drop_0. unfold a.
  by rewrite take_app_length.
Qed.

End EdgesMore.

Section EdgesOfChunks.
Context `{GelfConsts}.
Hypothesis magic_len : length magicChunked = 2%nat.
Hypothesis header_len : chunkedHeaderLen = 12%nat.

(** X14.  The first chunk of a message allocates as many slots as it declares; when
    its own index is not below that count, a declared count of zero
    included, the call panics on an index out of range. *)
Theorem a_first_chunk_beyond_its_count_panics (id : bytes) (s tt : byte) (payload : bytes)
    (rest : list event) (log : list nat) :
  length id = 8%nat →
  (length (chunk_datagram id s tt payload) ≤ ChunkSize)%nat →
  (Byte.to_nat tt ≤ Byte.to_nat s)%nat →
  reassemble {| pending := Datagram (chunk_datagram id s tt payload) :: rest;
                offered := log |} = Panic.
Proof.
  intros Hid Hd Hs. set (d := chunk_datagram id s tt payload) in *.
  assert (length d = (12 + length payload)%nat) as Hlen
    by by apply chunk_datagram_length.
  unfold reassemble. rewrite (loop_S 127), more_first.
  unfold iteration, conn_Read. cbn [pending mbind outcome_bind].
  rewrite len_cBuf_vars0, (take_ge d) by lia.
  change (cBuf vars0) with (Slice 0 ChunkSize). change (arr vars0) with (replicate ChunkSize x00).
  rewrite store_front.
  set (tail := drop (length d) (replicate ChunkSize x00)).
  assert (length (d ++ tail) = ChunkSize) as Hla
    by (unfold tail; rewrite length_store_front; rewrite length_replicate; lia).
  rewrite !reslice_ok by (cbn [lo]; rewrite ?Hla; lia).
  cbn [mbind outcome_bind lo Nat.add]. unfold dispatch. cbn [arr cHead cBuf ocid vars0].
  assert (view (d ++ tail) (Slice 0 2) = magicChunked) as ->
    by by apply chunk_datagram_head.
  unfold bytes_Equal at 1. rewrite (bool_decide_eq_true_2 (magicChunked = _)) by done.
  rewrite (reslice_ok _ _ 2 (2 + 8)) by (cbn [lo hi]; rewrite ?Hla; lia).
  rewrite (index_ok _ _ (2 + 8) s)
    by (first [by apply chunk_datagram_seq | unfold len; cbn [lo hi]; lia]).
  rewrite (index_ok _ _ (2 + 8 + 1) tt)
    by (first [by apply chunk_datagram_total | unfold len; cbn [lo hi]; lia]).
  cbn [mbind outcome_bind lo hi Nat.add differs].
  unfold len. cbn [lo hi]. rewrite Nat.sub_0_r, header_len, Hlen.
  rewrite (bool_decide_eq_true_2 (0 ≤ _)) by lia.
  rewrite (reslice_ok _ _ 12 (12 + length payload))
    by (cbn [lo hi]; rewrite ?Hla; lia).
  cbn [mbind outcome_bind].
  rewrite bool_decide_eq_false_2; [done|]. rewrite length_replicate. lia.
Qed.

End EdgesOfChunks.

(** ** [Read] on top of [ReadMessage] *)


Section ReadFacts.
Context `{GelfConsts} `{Library}.

Lemma Read_text (c c' : Conn) (mapped : gmap string JValue) (p : bytes) :
  readToMap c = Ok (mapped, c') → well_typed mapped →
  Read c p = (let '(n, eof, p') := strings_Read (text_of mapped) p in
              Ok (Delivered n eof p' c')).
Proof.
  intros Hr Ht. unfold Read. rewrite (ReadMessage_after _ _ _ Hr).
  destruct (toMessage_total mapped Ht) as [msg E]. rewrite E. cbn [mbind outcome_bind].
  rewrite (toMessage_Full _ _ E).
  destruct (toMessage_strings _ _ E) as (_ & _ & -> & _).
  done.
Qed.


(** X16.  When the decoded object has neither a full nor a short message, [Read]
    returns 0 with [io.EOF] and leaves [p] untouched; when [ReadMessage]
    returns an error, [Read] returns -1 with that error. *)
Theorem Read_without_a_text (c : Conn) (p : bytes) :
  (∀ c' mapped, readToMap c = Ok (mapped, c') → well_typed mapped →
                text_of mapped = "" →
                Read c p = Ok (Delivered 0 true p c')) ∧
  (∀ e, ReadMessage c = Err e → Read c p = Ok (Failed (-1) e)).
Proof.
  split.
  - intros c' mapped Hr Ht E. rewrite (Read_text _ _ _ _ Hr Ht), E. done.
  - intros e E. unfold Read. by rewrite E.
Qed.

End ReadFacts.

(** * The reader on examples

    From here on the constants are those of the GELF wire format and the
    library is the stand-in. *)

#[global] Existing Instance gelf_wire.
#[global] Existing Instance demo_library.

(** C1, counterexample: 129 chunks of one message, one byte each, arriving in
    the order of their indices.  The loop stops after 128 receives and the
    last byte is missing from the buffer. *)
Lemma reassembly_stops_after_128_chunks :
  ∃ cHead c',
    reassemble (on_wire (in_pieces id_demo pieces_129 (List.seq 0 129)))
      = Ok (cHead, take 128 (concat pieces_129), c') ∧
    take 128 (concat pieces_129) ≠ concat pieces_129.
Proof.
  eexists _, _. split; [vm_compute; reflexivity | vm_compute; discriminate].
Qed.

(** three pieces, the middle one arriving first *)
Lemma chunks_reassemble_to_the_payload_witness :
  ∃ cHead c',
    reassemble
      {| pending := (Datagram <$> in_pieces id_demo [text "abcd"; text "efgh"; text "ij"]
                                            [1; 0; 2]%nat) ++ [];
         offered := [] |}
      = Ok (cHead, concat [text "abcd"; text "efgh"; text "ij"], c') ∧
    pending c' = [].
Proof.
  apply (chunks_reassemble_to_the_payload (H := gelf_wire)).
  - reflexivity.
  - reflexivity.
  - reflexivity.
  - simpl. lia.
  - apply perm_swap.
  - vm_compute. repeat split; lia.
  - discriminate.
Defined.

(** C10, counterexample: 129 chunk datagrams with the declared count 129, all
    at index 0, the [i]-th with the payload [i].  The loop stops after 128
    receives: the buffer is the payload of the 128th datagram, and the last
    one delivered is still on the socket. *)
Lemma the_129th_arrival_is_not_counted :
  ∃ cHead c',
    reassemble (on_wire (at_one_index id_demo x00 pieces_129))
      = Ok (cHead, [byte_of 127], c') ∧
    last pieces_129 = Some [byte_of 128] ∧
    pending c' = [Datagram (chunk_datagram id_demo x00 (byte_of 129) [byte_of 128])].
Proof.
  eexists _, _. split; [vm_compute; reflexivity | split; vm_compute; reflexivity].
Qed.

(** three chunks of a declared count of three, all at index 1 *)
Lemma same_index_keeps_the_last_witness :
  ∃ cHead c',
    reassemble
      {| pending := (Datagram <$> at_one_index id_demo x01
                                    ([text "ab"; text "cd"] ++ [text "e"])) ++ [];
         offered := [] |}
      = Ok (cHead, text "e", c') ∧
    pending c' = [].
Proof.
  apply (same_index_keeps_the_last (H := gelf_wire)).
  - reflexivity.
  - reflexivity.
  - reflexivity.
  - simpl. lia.
  - simpl. lia.
  - vm_compute. repeat split; lia.
  - discriminate.
Defined.

(** C2, the code at the failing input: chunk 1 of 2 with the payload [c]
    arrives first, in a datagram of 13 bytes, then chunk 0 of 2 with the
    payload [ab], in one of 14 bytes.  The second receive is offered 13 bytes,
    the length of the first datagram, and the buffer comes out as [ac]. *)
Lemma second_receive_is_offered_the_first_length :
  ∃ cHead c',
    reassemble (on_wire [chunk_datagram id_demo x01 x02 (text "c");
                         chunk_datagram id_demo x00 x02 (text "ab")])
      = Ok (cHead, text "ac", c') ∧
    offered c' = [ChunkSize; 13%nat].
Proof.
  eexists _, _. split; vm_compute; reflexivity.
Qed.

(** C4, the code at the failing input: the document [doc_host] in two
    chunks, the second under another message id than the first.  No error is
    reported: the chunks are put together and the message is returned. *)
Lemma other_message_id_is_not_noticed :
  id_other ≠ id_demo ∧
  ∃ msg c',
    ReadMessage (on_wire [chunk_datagram id_demo x00 x02 (take 7 doc_host);
                          chunk_datagram id_other x01 x02 (drop 7 doc_host)])
      = Ok (msg, c') ∧
    Host msg = "h1" ∧ pending c' = [].
Proof.
  split; [discriminate|].
  eexists _, _. split; [vm_compute; reflexivity | split; reflexivity].
Qed.

(** a document with [_user], a null [_empty] and [host] *)
Lemma extra_is_the_underscore_keys_witness :
  ∃ msg,
    ReadMessage (on_wire [doc_extra]) = Ok (msg, done_1) ∧
    extra_at msg "user" = Some (JString "alice") ∧
    extra_at msg "empty" = None ∧
    extra_at msg "host" = None ∧
    is_Some (Extra msg).
Proof.
  destruct (extra_is_the_underscore_keys (on_wire [doc_extra]) done_1
              {[ "host" := JString "h1"; "_user" := JString "alice"; "_empty" := JNull ]})
    as [Htot Hx]; [vm_compute; reflexivity|].
  destruct Htot as [msg E]; [vm_compute; tauto|].
  exists msg. split; [exact E|].
  destruct (Hx msg done_1 E) as (Hj & Hs & _).
  split; [|split; [|split]].
  - apply Hj. split; [vm_compute; reflexivity | discriminate].
  - destruct (extra_at msg "empty") as [v|] eqn:Ev; [|reflexivity].
    apply Hj in Ev as [Ev Hv]. vm_compute in Ev. congruence.
  - destruct (extra_at msg "host") as [v|] eqn:Ev; [|reflexivity].
    apply Hj in Ev as [Ev Hv]. vm_compute in Ev. discriminate.
  - apply Hs. exists "user", (JString "alice").
    split; [vm_compute; reflexivity | discriminate].
Defined.

(** a document with the string [auth] under [facility], and one with the
    empty string there *)
Lemma facility_string_is_assigned_witness :
  (∃ msg, ReadMessage (on_wire [doc_auth]) = Ok (msg, done_1) ∧ Facility msg = "auth") ∧
  (∃ msg, ReadMessage (on_wire [doc_facility]) = Ok (msg, done_1) ∧ Facility msg = "").
Proof.
  split.
  - destruct (facility_string_is_assigned (on_wire [doc_auth]) done_1
                {[ "facility" := JString "auth"; "host" := JString "h1" ]} "auth")
      as [Hf Htot]; [vm_compute; reflexivity | vm_compute; reflexivity |].
    destruct Htot as [msg E]; [vm_compute; tauto|].
    exists msg. split; [exact E | exact (Hf msg done_1 E)].
  - destruct (facility_string_is_assigned (on_wire [doc_facility]) done_1
                {[ "facility" := JString ""; "timestamp" := JString "1400000000.5" ]} "")
      as [Hf Htot]; [vm_compute; reflexivity | vm_compute; reflexivity |].
    destruct Htot as [msg E]; [vm_compute; tauto|].
    exists msg. split; [exact E | exact (Hf msg done_1 E)].
Defined.

(** one document with an empty [full_message], one without the key *)
Lemma empty_full_message_is_absent_witness :
  message_of (ReadMessage (on_wire [doc_empty_full])) =
    message_of (ReadMessage (on_wire [doc_host])) ∧
  (∀ msg c'', ReadMessage (on_wire [doc_empty_full]) = Ok (msg, c'') → Full msg = "").
Proof.
  apply (empty_full_message_is_absent
           (on_wire [doc_empty_full]) done_1 (on_wire [doc_host]) done_1
           {[ "host" := JString "h1" ]}).
  - vm_compute. reflexivity.
  - vm_compute. reflexivity.
Defined.

(** a document with a numeral in a string under [timestamp] *)
Lemma timestamp_is_lenient_witness :
  ∃ msg, ReadMessage (on_wire [doc_facility]) = Ok (msg, done_1) ∧
         TimeUnix msg = f_1400000000_5.
Proof.
  destruct (timestamp_is_lenient (on_wire [doc_facility]) done_1
              {[ "facility" := JString ""; "timestamp" := JString "1400000000.5" ]})
    as [Ht Htot]; [vm_compute; reflexivity|].
  destruct (proj1 Htot) as [msg E]; [vm_compute; tauto|].
  exists msg. split; [exact E|].
  destruct (Ht msg done_1 E) as (_ & Hs & _).
  apply (Hs "1400000000.5"); vm_compute; reflexivity.
Defined.

(** a document whose only key is [_] *)
Lemma bare_underscore_goes_to_empty_key_witness :
  ∃ msg, ReadMessage (on_wire [doc_bare]) = Ok (msg, done_1) ∧
         extra_at msg "" = Some (JString "x").
Proof.
  destruct (bare_underscore_goes_to_empty_key (on_wire [doc_bare]) done_1
              {[ "_" := JString "x" ]} (JString "x"))
    as [Hx Htot]; [vm_compute; reflexivity | vm_compute; reflexivity | discriminate |].
  destruct Htot as [msg E]; [vm_compute; tauto|].
  exists msg. split; [exact E | exact (Hx msg done_1 E)].
Defined.

(** C5, counterexample: [zlib_host_16k] is a zlib stream of the document
    [doc_host], and the zlib reader delivers the document from it; its first
    byte is [0x68], not the zlib method byte of the rule.  Sent as it is, the
    document gives a message; sent as this stream, it is taken for
    uncompressed and the call ends with the error of the JSON decoder. *)
Lemma a_zlib_stream_of_another_window_is_not_told :
  zlib_NewReader (bytes_NewReader zlib_host_16k) = Some (bytes_NewReader doc_host) ∧
  (∃ msg, message_of (ReadMessage (on_wire [doc_host])) = Ok msg ∧ Host msg = "h1") ∧
  message_of (ReadMessage (on_wire [zlib_host_16k])) = Err UnmarshalError.
Proof.
  split; [vm_compute; reflexivity|]. split; [|vm_compute; reflexivity].
  eexists. split; [vm_compute; reflexivity | reflexivity].
Qed.

(** one document sent as it is, as its gzip stream in two chunks, and as its
    zlib stream *)
Lemma compression_is_told_from_two_bytes_witness :
  ∃ msg,
    Host msg = "h1" ∧
    message_of (ReadMessage (on_wire [doc_host])) = Ok msg ∧
    message_of (ReadMessage (on_wire (in_pieces id_demo [take 20 gzip_host; drop 20 gzip_host]
                                                [0; 1]%nat))) = Ok msg ∧
    message_of (ReadMessage (on_wire [zlib_host])) = Ok msg.
Proof.
  destruct (compression_is_told_from_two_bytes (H := gelf_wire) (H0 := demo_library))
    as (_ & _ & Hsame); [by exists x78|].
  destruct (Hsame (on_wire [doc_host]) done_1
              (on_wire (in_pieces id_demo [take 20 gzip_host; drop 20 gzip_host] [0; 1]%nat))
              {| pending := []; offered := [1420; 32]%nat |}
              (on_wire [zlib_host]) done_1
              (take 2 doc_host) (take 2 gzip_host) (take 2 zlib_host)
              doc_host gzip_host zlib_host)
    as (_ & _ & Hmsg).
  - vm_compute. reflexivity.
  - eexists _, _, _. split; vm_compute; reflexivity.
  - vm_compute. reflexivity.
  - eexists _, _, _. split; vm_compute; reflexivity.
  - vm_compute. reflexivity.
  - vm_compute. reflexivity.
  - eexists _, _, _. split; vm_compute; reflexivity.
  - vm_compute. reflexivity.
  - destruct (Hmsg {[ "host" := JString "h1" ]}) as (msg & Ep & Eg & Ez);
      [vm_compute; reflexivity | vm_compute; tauto |].
    exists msg. split; [|exact (conj Ep (conj Eg Ez))].
    assert (message_of (ReadMessage (on_wire [doc_host]))
            = Ok (set_Host "h1" new_Message)) as E by (vm_compute; reflexivity).
    rewrite E in Ep. injection Ep as <-. reflexivity.
Defined.


(** ** The rest of the reader on examples *)





(** a number beyond the int32 range under [level] and one with a fraction
    under [line]; then a small number under [level] and a numeral in a string
    under [line] *)
Lemma numbers_become_level_and_line_witness :
  (∃ msg,
     ReadMessage (on_wire [doc_numbers]) = Ok (msg, done_1) ∧
     Level msg = - 2 ^ 31 ∧ Line msg = 7) ∧
  (∃ msg,
     ReadMessage (H0 := table_library [(text "f1", obj_fields)]) (on_wire [text "f1"])
       = Ok (msg, done_1) ∧
     Level msg = 3 ∧ Line msg = 0).
Proof.
  split.
  - assert (∃ msg, ReadMessage (on_wire [doc_numbers]) = Ok (msg, done_1)) as [msg E]
      by (eexists; vm_compute; reflexivity).
    exists msg. split; [exact E|].
    destruct (numbers_become_level_and_line (on_wire [doc_numbers]) done_1 done_1
                {[ "level" := JNumber f_3000000000; "line" := JNumber f_7_5 ]} msg)
      as ([El Eli] & _ & _); [vm_compute; reflexivity | exact E |].
    split; [exact El | exact Eli].
  - assert (∃ msg, ReadMessage (H0 := table_library [(text "f1", obj_fields)])
                     (on_wire [text "f1"]) = Ok (msg, done_1)) as [msg E]
      by (eexists; vm_compute; reflexivity).
    exists msg. split; [exact E|].
    destruct (numbers_become_level_and_line (H0 := table_library [(text "f1", obj_fields)])
                (on_wire [text "f1"]) done_1 done_1 obj_fields msg)
      as ([El Eli] & _ & _); [vm_compute; reflexivity | exact E |].
    split; [exact El | exact Eli].
Defined.

Lemma extra_in_any_order_witness :
  range_extra (reverse (map_to_list obj_underscores)) ∅ =
    range_extra (map_to_list obj_underscores) ∅ ∧
  ∀ j v, range_extra (reverse (map_to_list obj_underscores)) ∅ !! j = Some v ↔
         obj_underscores !! String "_"%char j = Some v ∧ v ≠ JNull.
Proof.
  apply (extra_in_any_order obj_underscores (reverse (map_to_list obj_underscores))).
  apply reverse_Permutation.
Defined.

Lemma the_errors_of_a_call_witness :
  (∃ s taken rest,
     ReadError "timeout" = ReadError s ∧
     [Datagram (chunk_datagram id_demo x00 x02 (text "ab")); Failure "timeout"]
       = (Datagram <$> taken) ++ Failure s :: rest ∧
     (length taken < 128)%nat) ∨
  ReadError "timeout" = OutOfBandNotChunked ∨
  ReadError "timeout" = NewReaderError ∨
  ReadError "timeout" = UnmarshalError.
Proof.
  apply (the_errors_of_a_call
           {| pending := [Datagram (chunk_datagram id_demo x00 x02 (text "ab"));
                          Failure "timeout"];
              offered := [] |}).
  vm_compute. reflexivity.
Defined.

Lemma a_message_takes_1_to_128_datagrams_witness :
  ∃ taken, pending (on_wire [doc_host; doc_bare]) = (Datagram <$> taken) ++ [Datagram doc_bare] ∧
           (1 ≤ length taken ≤ 128)%nat.
Proof.
  assert (∃ msg, ReadMessage (on_wire [doc_host; doc_bare])
                   = Ok (msg, {| pending := [Datagram doc_bare]; offered := [1420%nat] |}))
    as [msg E] by (eexists; vm_compute; reflexivity).
  exact (a_message_takes_1_to_128_datagrams _ _ msg E).
Defined.

Lemma receives_are_offered_what_the_last_stored_witness :
  ∃ taken,
    pending (on_wire [chunk_datagram id_demo x00 x02 (take 7 doc_host);
                      chunk_datagram id_demo x01 x02 (drop 7 doc_host)])
      = (Datagram <$> taken) ++ [] ∧
    [1420; 19]%nat = [] ++ offers ChunkSize taken.
Proof.
  assert (∃ msg, ReadMessage (on_wire [chunk_datagram id_demo x00 x02 (take 7 doc_host);
                                       chunk_datagram id_demo x01 x02 (drop 7 doc_host)])
                   = Ok (msg, {| pending := []; offered := [1420; 19]%nat |}))
    as [msg E] by (eexists; vm_compute; reflexivity).
  exact (receives_are_offered_what_the_last_stored _ _ msg E).
Defined.

Lemma an_unchunked_datagram_is_the_message_witness :
  reassemble {| pending := [Datagram (replicate 1500 x41); Datagram doc_host]; offered := [] |} =
    Ok (take 2 (replicate 1500 x41), take ChunkSize (replicate 1500 x41),
        {| pending := [Datagram doc_host]; offered := [] ++ [ChunkSize] |}).
Proof.
  apply (an_unchunked_datagram_is_the_message (H := gelf_wire)).
  - cbn. lia.
  - rewrite length_replicate. lia.
  - vm_compute. discriminate.
Defined.

Lemma a_chunk_without_its_header_panics_witness :
  reassemble {| pending := [Datagram [x1e; x0f; x00]]; offered := [] |} = Panic.
Proof.
  apply (a_chunk_without_its_header_panics (H := gelf_wire)).
  - cbn. lia.
  - reflexivity.
Defined.

Lemma a_datagram_of_less_than_two_bytes_witness :
  reassemble {| pending := [Datagram []]; offered := [] |} =
    Ok (take 2 ([] ++ [x00; x00]), [], {| pending := []; offered := [] ++ [ChunkSize] |}).
Proof.
  apply (a_datagram_of_less_than_two_bytes (H := gelf_wire)).
  - cbn. lia.
  - cbn. lia.
  - vm_compute. discriminate.
Defined.

Lemma a_first_chunk_beyond_its_count_panics_witness :
  reassemble {| pending := [Datagram (chunk_datagram id_demo x00 x00 (text "ab"))];
                offered := [] |} = Panic.
Proof.
  apply (a_first_chunk_beyond_its_count_panics (H := gelf_wire)).
  - reflexivity.
  - reflexivity.
  - reflexivity.
  - vm_compute. lia.
  - vm_compute. lia.
Defined.

Lemma a_plain_datagram_among_chunks_is_refused_witness :
  reassemble
    {| pending := (Datagram <$> datagrams id_demo x02 [(x00, text "ab")])
                  ++ Datagram doc_host :: [];
       offered := [] |}
    = Err OutOfBandNotChunked.
Proof.
  apply (a_plain_datagram_among_chunks_is_refused (H := gelf_wire)).
  - reflexivity.
  - reflexivity.
  - reflexivity.
  - discriminate.
  - vm_compute. lia.
  - apply (bool_decide_unpack _). vm_compute. exact I.
  - vm_compute. repeat split; lia.
  - vm_compute. lia.
  - vm_compute. discriminate.
Defined.

Lemma chunks_are_taken_up_to_the_count_or_128_witness :
  ∃ cHead c',
    reassemble
      {| pending := (Datagram <$> datagrams id_demo (byte_of 129) arrivals_128)
                    ++ [Datagram doc_host];
         offered := [] |}
      = Ok (cHead,
            concat (placed (replicate (Byte.to_nat (byte_of 129)) []) arrivals_128), c') ∧
    pending c' = [Datagram doc_host].
Proof.
  apply (chunks_are_taken_up_to_the_count_or_128 (H := gelf_wire)).
  - reflexivity.
  - reflexivity.
  - reflexivity.
  - vm_compute. lia.
  - vm_compute. reflexivity.
  - apply (bool_decide_unpack _). vm_compute. exact I.
  - vm_compute. repeat split; lia.
  - vm_compute. discriminate.
Defined.


Lemma Read_without_a_text_witness :
  Read (on_wire [doc_host]) [x00; x00] = Ok (Delivered 0 true [x00; x00] done_1) ∧
  Read {| pending := [Failure "timeout"]; offered := [] |} [x00; x00]
    = Ok (Failed (-1) (ReadError "timeout")).
Proof.
  split.
  - apply (proj1 (Read_without_a_text (on_wire [doc_host]) [x00; x00])
             done_1 {[ "host" := JString "h1" ]}).
    + vm_compute. reflexivity.
    + vm_compute. tauto.
    + vm_compute. reflexivity.
  - apply (proj2 (Read_without_a_text {| pending := [Failure "timeout"]; offered := [] |}
                    [x00; x00])).
    vm_compute. reflexivity.
Defined.
